(** * For-The-People card game: the deck and turn engine of [cardgame.c]

    A shallow embedding of [src/cardgame.h], [src/cardgame.c] and the set-up
    of [src/main.c], followed by the properties of the specification.

    Conventions of the embedding.
    - The C enums [Suit], [Rank] and [PlayerTurn] are inductive types; their
      integer values (the ones the C code compares and tests against [0]) are
      given by [Suit_val], [Rank_val].
    - A [DeckOfCards] is the pair of its live cells [cards[0..size-1]] (a
      list, whose length is the [size] field) and its [topCard] field.
      [realloc] only changes capacity and is not visible in this model.
    - Reading [cards[size - 1]] of an empty deck is undefined behaviour in C;
      [drawCard] is therefore partial ([option]).
    - [rand()] is an oracle: [rand_out k] is the value returned by the k-th
      call of the run, and the number of calls made so far is threaded
      through the functions that shuffle.
    - [printf] narration is not modelled. *)

From stdpp Require Import base numbers option list strings.
From Stdlib Require Import ZArith Lia Permutation Sorted.

(** ** cardgame.h : enums and structs *)

Inductive Suit := Club | Spade | Heart | Diamond.

Inductive Rank :=
  Two | Three | Four | Five | Six | Seven | Eight | Nine | Ten
| Jack | Queen | King | Ace.

Inductive PlayerTurn := PlayerOne | PlayerTwo.

#[global] Instance Suit_eq_dec : EqDecision Suit.
Proof. solve_decision. Defined.
#[global] Instance Rank_eq_dec : EqDecision Rank.
Proof. solve_decision. Defined.
#[global] Instance PlayerTurn_eq_dec : EqDecision PlayerTurn.
Proof. solve_decision. Defined.

(** The integer value of each enumerator (C numbers them from 0). *)
Definition Suit_val (s : Suit) : Z :=
  match s with Club => 0 | Spade => 1 | Heart => 2 | Diamond => 3 end%Z.

Definition Rank_val (r : Rank) : Z :=
  match r with
  | Two => 0 | Three => 1 | Four => 2 | Five => 3 | Six => 4 | Seven => 5
  | Eight => 6 | Nine => 7 | Ten => 8 | Jack => 9 | Queen => 10 | King => 11
  | Ace => 12
  end%Z.

(** The enumerators met by [for (suit = Club; suit <= Diamond; ++suit)] and
    [for (rank = Two; rank <= Ace; ++rank)], in loop order. *)
Definition all_suits : list Suit := [Club; Spade; Heart; Diamond].
Definition all_ranks : list Rank :=
  [Two; Three; Four; Five; Six; Seven; Eight; Nine; Ten; Jack; Queen; King; Ace].

Record PlayingCard := mkCard { suit : Suit; rank : Rank }.

#[global] Instance PlayingCard_eq_dec : EqDecision PlayingCard.
Proof. solve_decision. Defined.

Record DeckOfCards := mkDeck { cards : list PlayingCard; topCard : PlayingCard }.

Definition size (deck : DeckOfCards) : nat := length (cards deck).

(** The initialiser [{ NULL, 0, {0} }]: no cards, and a zeroed [topCard],
    that is suit value 0 and rank value 0. *)
Definition zeroCard : PlayingCard := mkCard Club Two.
Definition emptyDeck : DeckOfCards := mkDeck [] zeroCard.

(** ** cardgame.c : deck container *)

(** [deck->cards[deck->size++] = card] *)
Definition addCardToDeck (deck : DeckOfCards) (card : PlayingCard) : DeckOfCards :=
  mkDeck (cards deck ++ [card]) (topCard deck).

(** [topCard = deck->cards[deck->size - 1]; deck->size--;] The local
    variable [topCard] is returned; the [topCard] field is not touched. *)
Definition drawCard (deck : DeckOfCards) : option (PlayingCard * DeckOfCards) :=
  if decide (size deck = 0) then None
  else
    card ← cards deck !! (size deck - 1);
    Some (card, mkDeck (take (size deck - 1) (cards deck)) (topCard deck)).

(** The two inner loops of [initializeDeck]: one pack appended to [deck]. *)
Definition addRanks (deck : DeckOfCards) (s : Suit) : DeckOfCards :=
  foldl (λ d r, addCardToDeck d (mkCard s r)) deck all_ranks.

Definition addPack (deck : DeckOfCards) : DeckOfCards :=
  foldl addRanks deck all_suits.

(** [for (pack = 0; pack < numPacks; ++pack)] around the two loops above. *)
Definition initializeDeck (numPacks : Z) : DeckOfCards :=
  foldl (λ d _, addPack d) emptyDeck (seqZ 0 numPacks).

(** The cards of one pack in the order [addPack] appends them. *)
Definition onePack : list PlayingCard :=
  s ← all_suits; r ← all_ranks; [mkCard s r].

(** Number of occurrences of a card value in a sequence. *)
Definition occurrences (c : PlayingCard) (cs : list PlayingCard) : nat :=
  length (filter (λ x, x = c) cs).

(** ** cardgame.c : shuffling and sorting *)

(** [temp = cards[i]; cards[i] = cards[j]; cards[j] = temp;] *)
Definition swapCards (cs : list PlayingCard) (i j : nat) : list PlayingCard :=
  match cs !! i, cs !! j with
  | Some temp, Some cj => <[j:=temp]> (<[i:=cj]> cs)
  | _, _ => cs
  end.

(** The body of [customSort]'s inner loop at index [j]. *)
Definition compareSwap (cs : list PlayingCard) (j : nat) : list PlayingCard :=
  match cs !! j, cs !! (j + 1) with
  | Some a, Some b =>
      if (Rank_val (rank a) >? Rank_val (rank b))%Z then swapCards cs j (j + 1)
      else cs
  | _, _ => cs
  end.

(** [for (j = 0; j < deck->size - i - 1; ++j)] *)
Definition bubblePass (cs : list PlayingCard) (i : nat) : list PlayingCard :=
  foldl compareSwap cs (seq 0 (length cs - i - 1)).

(** [for (i = 0; i < deck->size - 1; ++i)] *)
Definition customSort (deck : DeckOfCards) : DeckOfCards :=
  mkDeck (foldl bubblePass (cards deck) (seq 0 (size deck - 1))) (topCard deck).

(** [card.rank == topCard.rank || card.suit == topCard.suit] *)
Definition canPlayCard (card top : PlayingCard) : bool :=
  (Rank_val (rank card) =? Rank_val (rank top))%Z
  || (Suit_val (suit card) =? Suit_val (suit top))%Z.

(** The scan of [takeTurn] for [matchIndex]: the index of the first card of
    the hand that can be played, [None] standing for [-1]. *)
Definition findMatch (player : DeckOfCards) (top : PlayingCard) : option nat :=
  fst <$> list_find (λ card, canPlayCard card top = true) (cards player).

(** [for (i = from; i < upto; ++i) cards[i] = cards[i + 1];] *)
Definition shiftLeft (cs : list PlayingCard) (from upto : nat) : list PlayingCard :=
  foldl (λ cs i, match cs !! (i + 1) with
                 | Some c => <[i:=c]> cs
                 | None => cs
                 end) cs (seq from (upto - from)).

(** [player->size--;] then the shift loop from [matchIndex], then the
    [realloc] to the new size. *)
Definition removeCard (player : DeckOfCards) (matchIndex : nat) : DeckOfCards :=
  let newSize := size player - 1 in
  mkDeck (take newSize (shiftLeft (cards player) matchIndex newSize))
         (topCard player).

(** [isGameFinished]: [player1->size == 0 || player2->size == 0] *)
Definition isGameFinished (player1 player2 : DeckOfCards) : bool :=
  (size player1 =? 0) || (size player2 =? 0).

(** The state the game loop owns: the four decks, whose turn it is, and the
    number of calls made to [rand()]. *)
Record Game := mkGame {
  hiddenDeck : DeckOfCards;
  player1 : DeckOfCards;
  player2 : DeckOfCards;
  playedDeck : DeckOfCards;
  currentPlayer : PlayerTurn;
  randCalls : nat
}.

(** What [takeTurn] leaves behind: the three decks it was given pointers to,
    and the advanced [rand()] count. *)
Record TurnResult := mkTurn {
  t_hidden : DeckOfCards;
  t_player : DeckOfCards;
  t_played : DeckOfCards;
  t_rand : nat
}.

Section WithRand.

(** [rand_out k]: the value returned by call number [k] of [rand()]. *)
Variable rand_out : nat → nat.

(** [for (i = ...; i > 0; --i) { j = rand() % (i + 1); swap i j }]; [k]
    counts the calls of [rand()] made before. *)
Fixpoint shuffleLoop (i : nat) (cs : list PlayingCard) (k : nat)
  : list PlayingCard * nat :=
  match i with
  | 0 => (cs, k)
  | S i' =>
      let j := rand_out k `mod` (i + 1) in
      shuffleLoop i' (swapCards cs i j) (S k)
  end.

Definition shuffleDeck (deck : DeckOfCards) (k : nat) : DeckOfCards * nat :=
  let '(cs, k') := shuffleLoop (size deck - 1) (cards deck) k in
  (mkDeck cs (topCard deck), k').

(** *** takeTurn *)

(** Lines 180-187: the local variable [topCard], and the hidden deck after
    the draw that the test [topCard.rank == 0] may cause. *)
Definition chooseTopCard (hidden played : DeckOfCards)
  : option (PlayingCard * DeckOfCards) :=
  if (Rank_val (rank (topCard played)) =? 0)%Z then drawCard hidden
  else Some (topCard played, hidden).

(** Lines 189-217: play the first matching card, or draw one. *)
Definition playOrDraw (hidden player played : DeckOfCards) (top : PlayingCard)
  : option (DeckOfCards * DeckOfCards * DeckOfCards) :=
  match findMatch player top with
  | Some matchIndex =>
      card ← cards player !! matchIndex;
      let played1 := mkDeck (cards played) card in
      Some (hidden, removeCard player matchIndex, addCardToDeck played1 card)
  | None =>
      '(drawnCard, hidden1) ← drawCard hidden;
      Some (hidden1, addCardToDeck player drawnCard, played)
  end.

(** Lines 219-231: when the hidden deck is empty the played cards are
    copied into it, the played deck gets size 0 and [topCard.rank = 0] (the
    enumerator [Two]; the suit field is kept), and the hidden deck is
    shuffled. *)
Definition reshuffle (hidden player played : DeckOfCards) (k : nat) : TurnResult :=
  if decide (size hidden = 0) then
    let hidden1 := mkDeck (cards played) (topCard hidden) in
    let played1 := mkDeck [] (mkCard (suit (topCard played)) Two) in
    let '(hidden2, k') := shuffleDeck hidden1 k in
    mkTurn hidden2 player played1 k'
  else mkTurn hidden player played k.

Definition takeTurn (hidden player played : DeckOfCards) (k : nat)
  : option TurnResult :=
  '(top, hidden1) ← chooseTopCard hidden played;
  '(hidden2, player2, played2) ← playOrDraw hidden1 player played top;
  Some (reshuffle hidden2 player2 played2 k).

(** *** startGame and main *)

(** One iteration of the loop of [startGame]. *)
Definition gameTurn (g : Game) : option Game :=
  match currentPlayer g with
  | PlayerOne =>
      r ← takeTurn (hiddenDeck g) (player1 g) (playedDeck g) (randCalls g);
      Some (mkGame (t_hidden r) (t_player r) (player2 g) (t_played r)
                   PlayerTwo (t_rand r))
  | PlayerTwo =>
      r ← takeTurn (hiddenDeck g) (player2 g) (playedDeck g) (randCalls g);
      Some (mkGame (t_hidden r) (player1 g) (t_player r) (t_played r)
                   PlayerOne (t_rand r))
  end.

(** The body of [for (i = 0; i < 8; ++i)] in [main]. In
    [addCardToDeck(&player1, drawCard(&hiddenDeck))] the draw happens first. *)
Definition dealRound (st : DeckOfCards * DeckOfCards * DeckOfCards)
  : option (DeckOfCards * DeckOfCards * DeckOfCards) :=
  let '(hidden, p1, p2) := st in
  '(c1, hidden1) ← drawCard hidden;
  '(c2, hidden2) ← drawCard hidden1;
  Some (hidden2, addCardToDeck p1 c1, addCardToDeck p2 c2).

(** [main] up to the call of [startGame], for the pack count read from the
    user (between 1 and 10). *)
Definition mainSetup (numPacks : Z) : option Game :=
  let '(hidden, k) := shuffleDeck (initializeDeck numPacks) 0 in
  '(hidden1, p1, p2) ←
     foldl (λ st _, st ≫= dealRound) (Some (hidden, emptyDeck, emptyDeck))
           (seq 0 8);
  Some (mkGame hidden1 (customSort p1) (customSort p2) emptyDeck PlayerOne k).

(** The states the loop of [startGame] goes through. *)
Inductive reachable : Game → Prop :=
| reach_setup numPacks g :
    (1 ≤ numPacks ≤ 10)%Z → mainSetup numPacks = Some g → reachable g
| reach_turn g g' :
    reachable g →
    isGameFinished (player1 g) (player2 g) = false →
    gameTurn g = Some g' →
    reachable g'.

End WithRand.

(** ** cardgame.c : text output, the prompt and the game loop *)

(** [suitToString]: one [case] for each enumerator. *)
Definition suitToString (s : Suit) : string :=
  match s with
  | Club => "Club"
  | Spade => "Spade"
  | Heart => "Heart"
  | Diamond => "Diamond"
  end.

(** [rankToString]: the [switch] has the cases [Two] and [Three] only. For
    every other rank control reaches the end of the function without a
    [return]; the value the caller then passes to [printf] is undefined,
    which is [None] here. *)
Definition rankToString (r : Rank) : option string :=
  match r with
  | Two => Some "Two"
  | Three => Some "Three"
  | _ => None
  end.

(** The line feed that ends each line of output. *)
Definition newline : string := String (Ascii.ascii_of_nat 10) EmptyString.

(** [printf("%s of %s\n", rankToString(rank), suitToString(suit))] *)
Definition displayLine (card : PlayingCard) : option string :=
  r ← rankToString (rank card);
  Some (r +:+ " of " +:+ suitToString (suit card) +:+ newline).

(** [displayDeck]: the lines printed for the cards, front to back. *)
Definition displayDeck (deck : DeckOfCards) : option (list string) :=
  mapM displayLine (cards deck).


(** [startGame]: [while (!isGameFinished(...)) { takeTurn; toggle }], for at
    most [fuel] iterations. The result is the state at "Game over!"; [None]
    when a turn draws from an empty deck or the iterations run out. *)
Fixpoint startGame (rand_out : nat → nat) (fuel : nat) (g : Game) : option Game :=
  if isGameFinished (player1 g) (player2 g) then Some g
  else match fuel with
       | 0 => None
       | S fuel' => g' ← gameTurn rand_out g; startGame rand_out fuel' g'
       end.

(** ** Notions of the specification *)

(** [cards[i].rank <= cards[i+1].rank] for all adjacent positions. *)
Definition rank_le (a b : PlayingCard) : Prop :=
  (Rank_val (rank a) ≤ Rank_val (rank b))%Z.

Definition rank_sorted (cs : list PlayingCard) : Prop :=
  ∀ i a b, cs !! i = Some a → cs !! (i + 1) = Some b → rank_le a b.

(** [canPlay(card, reference)]: same rank or same suit. *)
Definition playable (card top : PlayingCard) : Prop :=
  rank card = rank top ∨ suit card = suit top.

(** [card] sits at index [i] of [hand] and is the first playable one. *)
Definition firstPlayable (hand : list PlayingCard) (top : PlayingCard)
    (i : nat) (card : PlayingCard) : Prop :=
  hand !! i = Some card ∧ playable card top ∧
  ∀ j c, j < i → hand !! j = Some c → ¬ playable c top.

Definition totalCards (hidden player played : DeckOfCards) : nat :=
  size hidden + size player + size played.

(** The cached [topCard] of a non-empty discard pile is its last card. *)
Definition topCardInSync (played : DeckOfCards) : Prop :=
  cards played ≠ [] → last (cards played) = Some (topCard played).

(** One pass of [customSort]'s inner loop seen on the list itself: [m]
    comparisons, the card carried along being [a]. Used to reason about
    [bubblePass]. *)
Fixpoint bubbleFrom (m : nat) (a : PlayingCard) (rest : list PlayingCard)
  : list PlayingCard :=
  match m, rest with
  | S m', b :: rest' =>
      if (Rank_val (rank a) >? Rank_val (rank b))%Z
      then b :: bubbleFrom m' a rest'
      else a :: bubbleFrom m' b rest'
  | _, _ => a :: rest
  end.

(** The hand of the player whose turn it is, and of the other player. *)
Definition currentHand (g : Game) : DeckOfCards :=
  match currentPlayer g with PlayerOne => player1 g | PlayerTwo => player2 g end.

Definition waitingHand (g : Game) : DeckOfCards :=
  match currentPlayer g with PlayerOne => player2 g | PlayerTwo => player1 g end.

(** All the cards a game state holds. *)
Definition allCards (g : Game) : list PlayingCard :=
  cards (hiddenDeck g) ++ cards (player1 g) ++ cards (player2 g)
  ++ cards (playedDeck g).

(** The cards of rank [r], in the order they have in [cs]. *)
Definition ofRank (r : Rank) (cs : list PlayingCard) : list PlayingCard :=
  filter (λ c, rank c = r) cs.

(** The order in which [main] deals: the cards [d1] of player one and [d2]
    of player two taken in turn, player one first. *)
Definition dealtOrder (d1 d2 : list PlayingCard) : list PlayingCard :=
  mjoin (zip_with (λ c1 c2, [c1; c2]) d1 d2).

(** ** Sample data for the examples *)

(** A fixed sequence of [rand()] results. *)
Definition sample_rand (k : nat) : nat := k * k + 1.

(** The hand [Two of Club, Five of Spade] of the specification's scenarios. *)
Definition sample_hand : DeckOfCards :=
  mkDeck [mkCard Club Two; mkCard Spade Five] zeroCard.

(** A draw pile with Nine of Club on top, and one holding only that card. *)
Definition sample_hidden : DeckOfCards :=
  mkDeck [mkCard Heart Ace; mkCard Club Nine] zeroCard.
Definition sample_hidden_one : DeckOfCards :=
  mkDeck [mkCard Club Nine] zeroCard.

(** Discard piles whose last card, cached in [topCard], is Five of Heart,
    respectively Three of Diamond. *)
Definition sample_played_five : DeckOfCards :=
  mkDeck [mkCard Heart Five] (mkCard Heart Five).
Definition sample_played_three : DeckOfCards :=
  mkDeck [mkCard Heart Ace; mkCard Diamond Three] (mkCard Diamond Three).

(** A draw pile of three cards, Seven of Diamond on top. *)
Definition sample_hidden_three : DeckOfCards :=
  mkDeck [mkCard Club Nine; mkCard Heart Ace; mkCard Diamond Seven] zeroCard.

(** Two consecutive turns around a played Two: the discard pile shows Five
    of Spade, the first hand holds Two of Spade, the second hand Two of
    Club and Nine of Heart, and the draw pile has Nine of Diamond on top. *)
Definition two_played_before : DeckOfCards :=
  mkDeck [mkCard Spade Five] (mkCard Spade Five).
Definition two_hand_first : DeckOfCards :=
  mkDeck [mkCard Spade Two; mkCard Diamond King] zeroCard.
Definition two_hand_second : DeckOfCards :=
  mkDeck [mkCard Club Two; mkCard Heart Nine] zeroCard.
Definition two_hidden : DeckOfCards :=
  mkDeck [mkCard Club Ace; mkCard Diamond Nine] zeroCard.
Definition two_played_after : DeckOfCards :=
  mkDeck [mkCard Spade Five; mkCard Spade Two] (mkCard Spade Two).

(** The game after the set-up of [main] for one pack, and after the first
    turn, both for [sample_rand]. *)
Definition sample_setup : Game :=
  Eval vm_compute in
    default (mkGame emptyDeck emptyDeck emptyDeck emptyDeck PlayerOne 0)
            (mainSetup sample_rand 1).

Definition sample_first_turn : Game :=
  Eval vm_compute in
    default sample_setup (gameTurn sample_rand sample_setup).

(** The game [startGame] ends in from [sample_setup]. *)
Definition sample_final : Game :=
  Eval vm_compute in
    default sample_setup (startGame sample_rand 100 sample_setup).

(** A deck of low cards, the only ones [rankToString] has cases for. *)
Definition sample_low : DeckOfCards :=
  mkDeck [mkCard Club Two; mkCard Diamond Three] zeroCard.

(** * Properties *)

(** ** Deck container: lemmas *)

Lemma Suit_val_all : Suit_val <$> all_suits = seqZ 0 4%Z.
Proof. reflexivity. Qed.

Lemma Rank_val_all : Rank_val <$> all_ranks = seqZ 0 13%Z.
Proof. reflexivity. Qed.

Lemma addCardToDeck_size deck card :
  size (addCardToDeck deck card) = S (size deck).
Proof. unfold size; simpl. rewrite length_app; simpl; lia. Qed.

Lemma drawCard_Some deck :
  cards deck ≠ [] →
  ∃ card rest, cards deck = rest ++ [card] ∧
    drawCard deck = Some (card, mkDeck rest (topCard deck)).
Proof.
  intros Hne. destruct deck as [cs top]; simpl in *.
  destruct (exists_last Hne) as (rest & card & ->).
  exists card, rest. split; [done|].
  unfold drawCard, size; simpl. rewrite length_app; simpl.
  destruct (decide _) as [E|_]; [lia|].
  replace (length rest + 1 - 1) with (length rest) by lia.
  rewrite list_lookup_middle by done. simpl.
  rewrite take_app_length. reflexivity.
Qed.

Lemma drawCard_None deck : cards deck = [] → drawCard deck = None.
Proof. intros E. unfold drawCard, size. rewrite E. done. Qed.

Lemma drawCard_inv deck card deck' :
  drawCard deck = Some (card, deck') →
  cards deck = cards deck' ++ [card] ∧ topCard deck' = topCard deck.
Proof.
  intros H. destruct (decide (cards deck = [])) as [E|Hne].
  - by rewrite drawCard_None in H.
  - destruct (drawCard_Some deck Hne) as (c & rest & Hc & Hd).
    rewrite Hd in H. injection H as <- <-. done.
Qed.

Lemma addRanks_cards (s : Suit) (rs : list Rank) deck :
  foldl (λ d r, addCardToDeck d (mkCard s r)) deck rs =
    mkDeck (cards deck ++ (mkCard s <$> rs)) (topCard deck).
Proof.
  revert deck. induction rs as [|r rs IH]; intros deck; simpl.
  - rewrite app_nil_r. by destruct deck.
  - rewrite IH. unfold addCardToDeck; simpl. by rewrite <- app_assoc.
Qed.

Lemma addSuits_cards (ss : list Suit) deck :
  foldl addRanks deck ss =
    mkDeck (cards deck ++ (s ← ss; r ← all_ranks; [mkCard s r])) (topCard deck).
Proof.
  revert deck. induction ss as [|s ss IH]; intros deck.
  - simpl. rewrite app_nil_r. by destruct deck.
  - cbn [foldl]. rewrite IH. unfold addRanks at 1 2. rewrite addRanks_cards.
    cbn [cards topCard]. rewrite <- app_assoc. do 2 f_equal.
Qed.

Lemma addPack_cards deck :
  addPack deck = mkDeck (cards deck ++ onePack) (topCard deck).
Proof. apply addSuits_cards. Qed.

Lemma initializeDeck_cards (numPacks : Z) :
  initializeDeck numPacks =
    mkDeck (mjoin (replicate (Z.to_nat numPacks) onePack)) zeroCard.
Proof.
  unfold initializeDeck, seqZ.
  generalize (Z.to_nat numPacks) as n. intros n.
  rewrite foldl_fmap.
  assert (G : ∀ k d, foldl (λ d0 (_ : nat), addPack d0) d (seq k n) =
            mkDeck (cards d ++ mjoin (replicate n onePack)) (topCard d)).
  { induction n as [|n IH]; intros k d; simpl.
    - rewrite app_nil_r. by destruct d.
    - rewrite IH, addPack_cards. simpl. by rewrite <- app_assoc. }
  apply G.
Qed.

Lemma occurrences_app c cs1 cs2 :
  occurrences c (cs1 ++ cs2) = occurrences c cs1 + occurrences c cs2.
Proof. unfold occurrences. by rewrite filter_app, length_app. Qed.

Lemma occurrences_perm c cs1 cs2 :
  cs1 ≡ₚ cs2 → occurrences c cs1 = occurrences c cs2.
Proof. intros H. unfold occurrences. by rewrite H. Qed.

Lemma occurrences_onePack c : occurrences c onePack = 1.
Proof. destruct c as [[] []]; vm_compute; reflexivity. Qed.

Lemma onePack_lookup s r :
  onePack !! Z.to_nat (13 * Suit_val s + Rank_val r) = Some (mkCard s r).
Proof. destruct s, r; reflexivity. Qed.

Lemma Suit_Rank_val_bound s r : (0 ≤ 13 * Suit_val s + Rank_val r < 52)%Z.
Proof. destruct s, r; simpl; lia. Qed.

Lemma occurrences_packs c n :
  occurrences c (mjoin (replicate n onePack)) = n.
Proof.
  induction n as [|n IH]; [reflexivity|].
  change (mjoin (replicate (S n) onePack))
    with (onePack ++ mjoin (replicate n onePack)).
  rewrite occurrences_app, occurrences_onePack, IH. done.
Qed.

Lemma length_packs n : length (mjoin (replicate n onePack)) = 52 * n.
Proof.
  induction n as [|n IH]; [reflexivity|].
  change (mjoin (replicate (S n) onePack))
    with (onePack ++ mjoin (replicate n onePack)).
  rewrite length_app, IH.
  change (length onePack) with 52. lia.
Qed.

Lemma lookup_packs n p q :
  p < n → q < 52 →
  mjoin (replicate n onePack) !! (52 * p + q) = onePack !! q.
Proof.
  revert p. induction n as [|n IH]; intros p Hp Hq; [lia|].
  change (mjoin (replicate (S n) onePack))
    with (onePack ++ mjoin (replicate n onePack)).
  destruct p as [|p].
  - replace (52 * 0 + q) with q by lia.
    apply lookup_app_l. change (length onePack) with 52. lia.
  - rewrite lookup_app_r; change (length onePack) with 52; [|lia].
    replace (52 * S p + q - 52) with (52 * p + q) by lia.
    apply IH; lia.
Qed.

(** ** Deck container: the properties *)

(** C9. On a non-empty deck [drawCard] succeeds, returns the last card and
    leaves the cards before it, so the size drops by one; adding the drawn
    card back with [addCardToDeck] gives the original deck again, hence the
    original size and the original multiset of cards. *)
Theorem C9_drawCard_then_addCardToDeck (deck : DeckOfCards) :
  cards deck ≠ [] →
  ∃ card deck',
    drawCard deck = Some (card, deck') ∧
    last (cards deck) = Some card ∧
    cards deck = cards deck' ++ [card] ∧
    S (size deck') = size deck ∧
    addCardToDeck deck' card = deck ∧
    size (addCardToDeck deck' card) = size deck ∧
    cards (addCardToDeck deck' card) ≡ₚ cards deck.
Proof.
  intros Hne.
  destruct (drawCard_Some deck Hne) as (card & rest & Hcs & Hdraw).
  exists card, (mkDeck rest (topCard deck)).
  assert (Hback : addCardToDeck (mkDeck rest (topCard deck)) card = deck).
  { unfold addCardToDeck; simpl. rewrite <- Hcs. by destruct deck. }
  split; [exact Hdraw|]. split; [rewrite Hcs; apply last_snoc|].
  split; [exact Hcs|]. split.
  - unfold size; simpl. rewrite Hcs, length_app; simpl. lia.
  - rewrite Hback. done.
Qed.

(** C6. For a pack count between 1 and 10, [initializeDeck] builds exactly
    [52 * numPacks] cards, every (suit, rank) value occurs exactly
    [numPacks] times, and the card of suit [s] and rank [r] of pack number
    [pack] sits at index [52 * pack + 13 * s + r]: packs outermost, then
    suits, then ranks. *)
Theorem C6_initializeDeck (numPacks : Z) :
  (1 ≤ numPacks ≤ 10)%Z →
  size (initializeDeck numPacks) = Z.to_nat (52 * numPacks) ∧
  (∀ card, occurrences card (cards (initializeDeck numPacks)) = Z.to_nat numPacks) ∧
  (∀ pack s r, (0 ≤ pack < numPacks)%Z →
     cards (initializeDeck numPacks)
       !! Z.to_nat (52 * pack + 13 * Suit_val s + Rank_val r)
     = Some (mkCard s r)).
Proof.
  intros Hn. rewrite initializeDeck_cards. unfold size. cbn [cards].
  split; [rewrite length_packs; lia|].
  split; [intros card; apply occurrences_packs|].
  intros pack s r Hp.
  pose proof (Suit_Rank_val_bound s r) as Hb.
  replace (Z.to_nat (52 * pack + 13 * Suit_val s + Rank_val r))
    with (52 * Z.to_nat pack + Z.to_nat (13 * Suit_val s + Rank_val r)) by lia.
  rewrite lookup_packs by lia. apply onePack_lookup.
Qed.

(** ** Shuffling *)

Lemma insert_swap_perm (cs : list PlayingCard) j b x :
  cs !! j = Some b → b :: <[j:=x]> cs ≡ₚ x :: cs.
Proof.
  intros Hj. pose proof (lookup_lt_Some _ _ _ Hj) as Hlt.
  rewrite insert_take_drop by exact Hlt.
  rewrite <- (take_drop_middle cs j b Hj) at 3.
  rewrite <- !Permutation_middle. apply perm_swap.
Qed.

Lemma swapCards_perm cs i j : swapCards cs i j ≡ₚ cs.
Proof.
  unfold swapCards.
  destruct (cs !! i) as [a|] eqn:Hi; [|done].
  destruct (cs !! j) as [b|] eqn:Hj; [|done].
  destruct (decide (i = j)) as [->|Hne].
  - assert (a = b) as -> by congruence.
    rewrite list_insert_insert_eq. by rewrite list_insert_id.
  - apply (Permutation_cons_inv (a := b)).
    rewrite insert_swap_perm.
    + apply insert_swap_perm. exact Hi.
    + rewrite list_lookup_insert_ne by done. exact Hj.
Qed.

Lemma shuffleLoop_perm rand_out i cs k :
  (shuffleLoop rand_out i cs k).1 ≡ₚ cs.
Proof.
  revert cs k. induction i as [|i IH]; intros cs k; simpl; [done|].
  rewrite IH. apply swapCards_perm.
Qed.

Lemma shuffleLoop_calls rand_out i cs k :
  (shuffleLoop rand_out i cs k).2 = k + i.
Proof.
  revert cs k. induction i as [|i IH]; intros cs k; simpl; [lia|].
  rewrite IH. lia.
Qed.

Lemma shuffleDeck_perm rand_out deck k :
  cards (shuffleDeck rand_out deck k).1 ≡ₚ cards deck.
Proof.
  unfold shuffleDeck.
  pose proof (shuffleLoop_perm rand_out (size deck - 1) (cards deck) k) as H.
  destruct (shuffleLoop _ _ _ _) as [cs k']. exact H.
Qed.

Lemma shuffleDeck_topCard rand_out deck k :
  topCard (shuffleDeck rand_out deck k).1 = topCard deck.
Proof.
  unfold shuffleDeck. by destruct (shuffleLoop _ _ _ _) as [cs k'].
Qed.

Lemma shuffleDeck_size rand_out deck k :
  size (shuffleDeck rand_out deck k).1 = size deck.
Proof. unfold size. by rewrite shuffleDeck_perm. Qed.

(** C7. Whatever values [rand()] returns, [shuffleDeck] permutes the cards
    of the deck: the size, and the number of occurrences of every card
    value, are the same before and after. *)
Theorem C7_shuffleDeck_permutation (rand_out : nat → nat)
    (deck : DeckOfCards) (k : nat) :
  cards (shuffleDeck rand_out deck k).1 ≡ₚ cards deck ∧
  size (shuffleDeck rand_out deck k).1 = size deck ∧
  ∀ card, occurrences card (cards (shuffleDeck rand_out deck k).1)
          = occurrences card (cards deck).
Proof.
  split; [apply shuffleDeck_perm|]. split; [apply shuffleDeck_size|].
  intros card. apply occurrences_perm, shuffleDeck_perm.
Qed.

(** ** Sorting *)

Lemma compareSwap_at pre a b rest :
  compareSwap (pre ++ a :: b :: rest) (length pre) =
    pre ++ (if (Rank_val (rank a) >? Rank_val (rank b))%Z
            then b :: a :: rest else a :: b :: rest).
Proof.
  assert (H1 : (pre ++ a :: b :: rest) !! length pre = Some a)
    by (by apply list_lookup_middle).
  assert (H2 : (pre ++ a :: b :: rest) !! (length pre + 1) = Some b).
  { rewrite lookup_app_r by lia.
    replace (length pre + 1 - length pre) with 1 by lia. reflexivity. }
  unfold compareSwap, swapCards. rewrite H1, H2.
  destruct (Rank_val (rank a) >? Rank_val (rank b))%Z; [|reflexivity].
  rewrite !insert_app_r_alt by lia.
  replace (length pre + 1 - length pre) with 1 by lia.
  rewrite Nat.sub_diag. reflexivity.
Qed.

Lemma foldl_compareSwap m : ∀ pre a rest,
  m ≤ length rest →
  foldl compareSwap (pre ++ a :: rest) (seq (length pre) m) =
    pre ++ bubbleFrom m a rest.
Proof.
  induction m as [|m IH]; intros pre a rest Hm; [reflexivity|].
  destruct rest as [|b rest]; simpl in Hm; [lia|].
  cbn [seq foldl bubbleFrom]. rewrite compareSwap_at.
  destruct (Rank_val (rank a) >? Rank_val (rank b))%Z.
  - replace (pre ++ b :: a :: rest) with ((pre ++ [b]) ++ a :: rest)
      by (rewrite <- app_assoc; reflexivity).
    replace (S (length pre)) with (length (pre ++ [b]))
      by (rewrite length_app; simpl; lia).
    rewrite IH by lia. rewrite <- app_assoc; reflexivity.
  - replace (pre ++ a :: b :: rest) with ((pre ++ [a]) ++ b :: rest)
      by (rewrite <- app_assoc; reflexivity).
    replace (S (length pre)) with (length (pre ++ [a]))
      by (rewrite length_app; simpl; lia).
    rewrite IH by lia. rewrite <- app_assoc; reflexivity.
Qed.

Lemma bubblePass_cons a rest i :
  bubblePass (a :: rest) i = bubbleFrom (length rest - i) a rest.
Proof.
  unfold bubblePass. cbn [length].
  replace (S (length rest) - i - 1) with (length rest - i) by lia.
  apply (foldl_compareSwap (length rest - i) [] a rest). lia.
Qed.

Lemma bubbleFrom_perm m : ∀ a rest, bubbleFrom m a rest ≡ₚ a :: rest.
Proof.
  induction m as [|m IH]; intros a rest; [done|].
  destruct rest as [|b rest]; [done|]. cbn [bubbleFrom].
  destruct (Rank_val (rank a) >? Rank_val (rank b))%Z; rewrite IH.
  - apply perm_swap.
  - done.
Qed.

Lemma bubbleFrom_app m : ∀ a rest back,
  m ≤ length rest →
  bubbleFrom m a (rest ++ back) = bubbleFrom m a rest ++ back.
Proof.
  induction m as [|m IH]; intros a rest back Hm; [reflexivity|].
  destruct rest as [|b rest]; simpl in Hm; [lia|]. simpl.
  destruct (Rank_val (rank a) >? Rank_val (rank b))%Z;
    rewrite IH by lia; reflexivity.
Qed.

(** A full pass carries a card of greatest rank to the last position. *)
Lemma bubbleFrom_max rest : ∀ a,
  ∃ front mx, bubbleFrom (length rest) a rest = front ++ [mx] ∧
    rank_le a mx ∧ Forall (λ x, rank_le x mx) front.
Proof.
  unfold rank_le.
  induction rest as [|b rest IH]; intros a.
  - exists [], a. split; [reflexivity|]. split; [lia|constructor].
  - cbn [length bubbleFrom].
    destruct (Rank_val (rank a) >? Rank_val (rank b))%Z eqn:Hab.
    + destruct (IH a) as (front & mx & -> & Ha & Hf).
      exists (b :: front), mx. split; [reflexivity|]. split; [exact Ha|].
      constructor; [lia|exact Hf].
    + destruct (IH b) as (front & mx & -> & Hb & Hf).
      exists (a :: front), mx. split; [reflexivity|]. split; [lia|].
      constructor; [lia|exact Hf].
Qed.

Lemma bubbleFrom_sorted m : ∀ a rest,
  Sorted rank_le (a :: rest) → bubbleFrom m a rest = a :: rest.
Proof.
  induction m as [|m IH]; intros a rest Hs; [reflexivity|].
  destruct rest as [|b rest]; [reflexivity|]. cbn [bubbleFrom].
  apply Sorted_inv in Hs as [Hs Hhd]. apply HdRel_inv in Hhd.
  unfold rank_le in Hhd.
  destruct (Rank_val (rank a) >? Rank_val (rank b))%Z eqn:Hab; [lia|].
  by rewrite IH.
Qed.

Lemma Sorted_rank_sorted cs : Sorted rank_le cs ↔ rank_sorted cs.
Proof.
  unfold rank_sorted. split.
  - induction 1 as [|a cs Hs IH Hhd]; intros i x y Hx Hy; [done|].
    destruct i as [|i]; simpl in *.
    + injection Hx as ->. destruct cs as [|b cs]; [done|].
      injection Hy as ->. by apply HdRel_inv in Hhd.
    + by apply (IH i).
  - induction cs as [|a cs IH]; intros H; constructor.
    + apply IH. intros i x y Hx Hy. by apply (H (S i)).
    + destruct cs as [|b cs]; constructor. by apply (H 0).
Qed.

Lemma bubblePass_length cs i : length (bubblePass cs i) = length cs.
Proof.
  destruct cs as [|a rest]; [reflexivity|].
  rewrite bubblePass_cons. by rewrite bubbleFrom_perm.
Qed.

Lemma bubblePass_perm cs i : bubblePass cs i ≡ₚ cs.
Proof.
  destruct cs as [|a rest]; [reflexivity|].
  rewrite bubblePass_cons. apply bubbleFrom_perm.
Qed.

Lemma bubblePass_sorted cs i : Sorted rank_le cs → bubblePass cs i = cs.
Proof.
  intros Hs. destruct cs as [|a rest]; [reflexivity|].
  rewrite bubblePass_cons. by apply bubbleFrom_sorted.
Qed.

(** The invariant of the outer loop before pass [i]: the last [i] cards are
    in ascending order of rank and no card before them has a greater rank. *)
Lemma bubblePass_invariant cs i front back :
  cs = front ++ back → length back = i → front ≠ [] →
  Sorted rank_le back →
  Forall (λ x, Forall (rank_le x) back) front →
  ∃ front' mx,
    bubblePass cs i = front' ++ mx :: back ∧
    Sorted rank_le (mx :: back) ∧
    Forall (λ x, Forall (rank_le x) (mx :: back)) front'.
Proof.
  intros -> Hlen Hne Hs Hall.
  destruct front as [|a rest]; [done|]. clear Hne.
  change ((a :: rest) ++ back) with (a :: (rest ++ back)).
  rewrite bubblePass_cons, length_app.
  replace (length rest + length back - i) with (length rest) by lia.
  rewrite bubbleFrom_app by lia.
  destruct (bubbleFrom_max rest a) as (front' & mx & Heq & Ha & Hf).
  pose proof (bubbleFrom_perm (length rest) a rest) as Hperm.
  rewrite Heq in *. exists front', mx.
  split; [rewrite <- app_assoc; reflexivity|].
  rewrite <- Hperm in Hall. apply Forall_app in Hall as [Hall Hmx].
  apply Forall_cons in Hmx as [Hmx _].
  split.
  - constructor; [exact Hs|]. destruct back; constructor.
    by apply Forall_cons in Hmx as [? _].
  - rewrite Forall_forall in Hall, Hf. apply Forall_forall. intros x Hx.
    constructor; [by apply Hf | by apply Hall].
Qed.

Lemma outer_loop_sorted t : ∀ cs i front back,
  cs = front ++ back → length back = i → length front = S t →
  Sorted rank_le back →
  Forall (λ x, Forall (rank_le x) back) front →
  Sorted rank_le (foldl bubblePass cs (seq i t)).
Proof.
  induction t as [|t IH]; intros cs i front back -> Hlen Hfront Hs Hall.
  - destruct front as [|a [|? ?]]; simplify_eq/=.
    constructor; [exact Hs|].
    apply Forall_cons in Hall as [Hall _]. destruct back; constructor.
    by apply Forall_cons in Hall as [? _].
  - cbn [seq foldl].
    destruct (bubblePass_invariant (front ++ back) i front back)
      as (front' & mx & Heq & Hs' & Hall'); try done.
    { by destruct front. }
    apply (IH _ (S i) front' (mx :: back)); try done.
    + simpl; lia.
    + pose proof (bubblePass_length (front ++ back) i) as Hl.
      rewrite Heq, !length_app in Hl. simpl in Hl. lia.
Qed.

Lemma customSort_Sorted deck : Sorted rank_le (cards (customSort deck)).
Proof.
  unfold customSort, size; cbn [cards].
  destruct (cards deck) as [|a rest] eqn:E; [constructor|].
  cbn [length]. replace (S (length rest) - 1) with (length rest) by lia.
  apply (outer_loop_sorted (length rest) _ 0 (a :: rest) []).
  - by rewrite app_nil_r.
  - reflexivity.
  - reflexivity.
  - constructor.
  - apply Forall_forall. intros; constructor.
Qed.

Lemma customSort_perm deck : cards (customSort deck) ≡ₚ cards deck.
Proof.
  unfold customSort; cbn [cards]. generalize (seq 0 (size deck - 1)) as passes.
  intros passes. generalize (cards deck) as cs. 
  induction passes as [|i passes IH]; intros cs; [done|].
  cbn [foldl]. rewrite IH. apply bubblePass_perm.
Qed.

Lemma customSort_topCard deck : topCard (customSort deck) = topCard deck.
Proof. reflexivity. Qed.

Lemma customSort_sorted_id deck :
  rank_sorted (cards deck) → customSort deck = deck.
Proof.
  intros Hs%Sorted_rank_sorted. destruct deck as [cs top].
  unfold customSort, size; cbn [cards topCard] in *. f_equal.
  generalize (seq 0 (length cs - 1)) as passes.
  induction passes as [|i passes IH]; [reflexivity|].
  cbn [foldl]. by rewrite bubblePass_sorted.
Qed.

(** C8. After [customSort] every adjacent pair of cards is in ascending
    order of rank, and [customSort] leaves a deck that is already in that
    order unchanged, so sorting twice is the same as sorting once. *)
Theorem C8_customSort_sorted_idempotent (deck : DeckOfCards) :
  rank_sorted (cards (customSort deck)) ∧
  (rank_sorted (cards deck) → customSort deck = deck) ∧
  customSort (customSort deck) = customSort deck.
Proof.
  pose proof (customSort_Sorted deck) as Hs%Sorted_rank_sorted.
  split; [exact Hs|]. split; [apply customSort_sorted_id|].
  by apply customSort_sorted_id.
Qed.

(** ** takeTurn: the pieces *)

Lemma Rank_val_inj r1 r2 : Rank_val r1 = Rank_val r2 → r1 = r2.
Proof. destruct r1, r2; simpl; intros H; first [reflexivity | discriminate H]. Qed.

Lemma Suit_val_inj s1 s2 : Suit_val s1 = Suit_val s2 → s1 = s2.
Proof. destruct s1, s2; simpl; intros H; first [reflexivity | discriminate H]. Qed.

Lemma Rank_val_zero r : (Rank_val r =? 0)%Z = true ↔ r = Two.
Proof. destruct r; simpl; split; intros H; first [reflexivity | discriminate H]. Qed.

Lemma canPlayCard_playable card top :
  canPlayCard card top = true ↔ playable card top.
Proof.
  unfold canPlayCard, playable.
  rewrite orb_true_iff, !Z.eqb_eq. split.
  - intros [H|H]; [left; by apply Rank_val_inj | right; by apply Suit_val_inj].
  - intros [H|H]; [left | right]; by rewrite H.
Qed.

Lemma findMatch_Some player top i :
  findMatch player top = Some i ↔
  ∃ card, firstPlayable (cards player) top i card.
Proof.
  unfold findMatch, firstPlayable. split.
  - intros H. apply fmap_Some in H as ([j card] & Hfind & ->).
    apply list_find_Some in Hfind as (Hl & Hp & Hfirst).
    exists card. split; [exact Hl|]. split; [by apply canPlayCard_playable|].
    intros j' c Hlt Hc Hplay. apply (Hfirst j' c Hc Hlt).
    by apply canPlayCard_playable.
  - intros (card & Hl & Hp & Hfirst).
    apply fmap_Some. exists (i, card). split; [|reflexivity].
    apply list_find_Some. split; [exact Hl|].
    split; [by apply canPlayCard_playable|].
    intros j c Hc Hlt Hplay. apply (Hfirst j c Hlt Hc).
    by apply canPlayCard_playable.
Qed.

Lemma findMatch_None player top :
  findMatch player top = None ↔
  ∀ card, card ∈ cards player → ¬ playable card top.
Proof.
  unfold findMatch. rewrite fmap_None, list_find_None, Forall_forall.
  split; intros H card Hin Hp; apply (H card Hin); by apply canPlayCard_playable.
Qed.

Lemma last_cons_default (x y : PlayingCard) rest :
  default x (last (y :: rest)) = default y (last rest).
Proof.
  destruct rest as [|z rest]; [reflexivity|].
  change (last (y :: z :: rest)) with (last (z :: rest)).
  destruct (last (z :: rest)) eqn:E; [reflexivity|].
  by apply last_None in E.
Qed.

Lemma shift_loop rest : ∀ pre x,
  foldl (λ (cs : list PlayingCard) (i : nat), match cs !! (i + 1) with
                 | Some c => <[i:=c]> cs
                 | None => cs
                 end) (pre ++ x :: rest) (seq (length pre) (length rest))
  = pre ++ rest ++ [default x (last rest)].
Proof.
  induction rest as [|y rest IH]; intros pre x; [reflexivity|].
  cbn [length seq foldl].
  rewrite lookup_app_r by lia.
  replace (length pre + 1 - length pre) with 1 by lia. cbn [lookup list_lookup].
  rewrite insert_app_r_alt by lia. rewrite Nat.sub_diag. cbn [insert list_insert].
  replace (pre ++ y :: y :: rest) with ((pre ++ [y]) ++ y :: rest)
    by (rewrite <- app_assoc; reflexivity).
  replace (S (length pre)) with (length (pre ++ [y]))
    by (rewrite length_app; simpl; lia).
  rewrite IH, last_cons_default. rewrite <- app_assoc. reflexivity.
Qed.

(** The shift loop and the shrinking of [takeTurn] remove the card at
    [matchIndex] and keep the other cards in their order. *)
Lemma removeCard_delete player matchIndex :
  matchIndex < size player →
  removeCard player matchIndex =
    mkDeck (delete matchIndex (cards player)) (topCard player).
Proof.
  unfold removeCard, shiftLeft, size. intros Hlt.
  destruct (lookup_lt_is_Some_2 _ _ Hlt) as [x Hx].
  pose proof (take_drop_middle _ _ _ Hx) as Hsplit.
  set (pre := take matchIndex (cards player)) in *.
  set (rest := drop (S matchIndex) (cards player)) in *.
  assert (Hpre : length pre = matchIndex)
    by (unfold pre; rewrite length_take; lia).
  rewrite <- Hsplit, <- Hpre. f_equal.
  rewrite length_app. cbn [length].
  replace (length pre + S (length rest) - 1 - length pre) with (length rest) by lia.
  rewrite shift_loop, delete_middle, app_assoc.
  replace (length pre + S (length rest) - 1) with (length (pre ++ rest))
    by (rewrite length_app; lia).
  apply take_app_length.
Qed.

Lemma chooseTopCard_sentinel hidden played :
  rank (topCard played) = Two → chooseTopCard hidden played = drawCard hidden.
Proof. intros H. unfold chooseTopCard. by rewrite H. Qed.

Lemma chooseTopCard_cached hidden played :
  rank (topCard played) ≠ Two →
  chooseTopCard hidden played = Some (topCard played, hidden).
Proof.
  intros H. unfold chooseTopCard.
  destruct (Rank_val (rank (topCard played)) =? 0)%Z eqn:E; [|reflexivity].
  by apply Rank_val_zero in E.
Qed.

Lemma playOrDraw_play hidden player played top i card :
  firstPlayable (cards player) top i card →
  playOrDraw hidden player played top =
    Some (hidden, mkDeck (delete i (cards player)) (topCard player),
          mkDeck (cards played ++ [card]) card).
Proof.
  intros Hfirst. unfold playOrDraw.
  assert (Hfind : findMatch player top = Some i)
    by (apply findMatch_Some; eauto).
  rewrite Hfind. destruct Hfirst as (Hl & _ & _). rewrite Hl. simpl.
  rewrite removeCard_delete; [reflexivity|].
  unfold size. by eapply lookup_lt_Some.
Qed.

Lemma playOrDraw_draw hidden player played top drawn hidden' :
  (∀ card, card ∈ cards player → ¬ playable card top) →
  drawCard hidden = Some (drawn, hidden') →
  playOrDraw hidden player played top =
    Some (hidden', addCardToDeck player drawn, played).
Proof.
  intros Hnone Hdraw. apply findMatch_None in Hnone. unfold playOrDraw.
  rewrite Hnone, Hdraw. reflexivity.
Qed.

Lemma playOrDraw_cases hidden player played top h2 p2 d2 :
  playOrDraw hidden player played top = Some (h2, p2, d2) →
  (∃ i card, firstPlayable (cards player) top i card ∧ h2 = hidden ∧
     p2 = mkDeck (delete i (cards player)) (topCard player) ∧
     d2 = mkDeck (cards played ++ [card]) card) ∨
  ((∀ card, card ∈ cards player → ¬ playable card top) ∧
   ∃ drawn, drawCard hidden = Some (drawn, h2) ∧
     p2 = addCardToDeck player drawn ∧ d2 = played).
Proof.
  intros H. destruct (findMatch player top) as [i|] eqn:Hfind.
  - left. apply findMatch_Some in Hfind as [card Hfirst].
    rewrite (playOrDraw_play _ _ _ _ _ _ Hfirst) in H.
    exists i, card. by simplify_eq.
  - right. unfold playOrDraw in H. rewrite Hfind in H.
    split; [exact (proj1 (findMatch_None _ _) Hfind)|].
    destruct (drawCard hidden) as [[drawn hidden']|]; [|done].
    exists drawn. by simplify_eq/=.
Qed.

Lemma takeTurn_steps rand_out hidden player played k top hidden1 h2 p2 d2 :
  chooseTopCard hidden played = Some (top, hidden1) →
  playOrDraw hidden1 player played top = Some (h2, p2, d2) →
  takeTurn rand_out hidden player played k =
    Some (reshuffle rand_out h2 p2 d2 k).
Proof. intros H1 H2. unfold takeTurn. rewrite H1; simpl. by rewrite H2. Qed.

Lemma takeTurn_inv rand_out hidden player played k r :
  takeTurn rand_out hidden player played k = Some r →
  ∃ top hidden1 h2 p2 d2,
    chooseTopCard hidden played = Some (top, hidden1) ∧
    playOrDraw hidden1 player played top = Some (h2, p2, d2) ∧
    r = reshuffle rand_out h2 p2 d2 k.
Proof.
  unfold takeTurn. intros H.
  destruct (chooseTopCard hidden played) as [[top hidden1]|] eqn:E1; [|done].
  simpl in H.
  destruct (playOrDraw hidden1 player played top) as [[[h2 p2] d2]|] eqn:E2;
    [|done].
  simpl in H. exists top, hidden1, h2, p2, d2. by simplify_eq.
Qed.

Lemma reshuffle_player rand_out hidden player played k :
  t_player (reshuffle rand_out hidden player played k) = player.
Proof.
  unfold reshuffle. destruct (decide _); [|reflexivity].
  by destruct (shuffleDeck _ _ _).
Qed.

Lemma reshuffle_nonempty rand_out hidden player played k :
  size hidden ≠ 0 →
  reshuffle rand_out hidden player played k = mkTurn hidden player played k.
Proof. intros H. unfold reshuffle. by destruct (decide _). Qed.

Lemma reshuffle_empty rand_out hidden player played k :
  size hidden = 0 →
  reshuffle rand_out hidden player played k =
    mkTurn (shuffleDeck rand_out (mkDeck (cards played) (topCard hidden)) k).1
           player
           (mkDeck [] (mkCard (suit (topCard played)) Two))
           (shuffleDeck rand_out (mkDeck (cards played) (topCard hidden)) k).2.
Proof.
  intros H. unfold reshuffle. destruct (decide _); [|done].
  by destruct (shuffleDeck _ _ _).
Qed.

Lemma reshuffle_total rand_out hidden player played k :
  let r := reshuffle rand_out hidden player played k in
  size (t_hidden r) + size (t_played r) = size hidden + size played.
Proof.
  simpl. destruct (decide (size hidden = 0)) as [E|E].
  - rewrite reshuffle_empty by done. cbn [t_hidden t_played].
    rewrite shuffleDeck_size. unfold size in *; simpl. lia.
  - by rewrite reshuffle_nonempty.
Qed.

(** ** takeTurn: the properties *)

(** C3. Once the reference card [top] is fixed, the hand is searched from
    the front. If [card] at index [i] is the first card with the rank or
    the suit of [top], the scan returns [i], the hand loses exactly that
    card (the cards before and after it keep their order), the card is
    appended to the discard pile and becomes its [topCard]. If no card of
    the hand matches, one card is drawn from the draw pile and appended to
    the hand, and the discard pile is left as it was. These are the decks
    that [takeTurn] then hands to its reshuffle step. *)
Theorem C3_play_first_match_or_draw (rand_out : nat → nat)
    (hidden player played : DeckOfCards) (k : nat)
    (top : PlayingCard) (hidden1 : DeckOfCards) :
  chooseTopCard hidden played = Some (top, hidden1) →
  (∀ i card,
     firstPlayable (cards player) top i card →
     let hand' := mkDeck (take i (cards player) ++ drop (S i) (cards player))
                         (topCard player) in
     let played' := mkDeck (cards played ++ [card]) card in
     findMatch player top = Some i ∧
     playOrDraw hidden1 player played top = Some (hidden1, hand', played') ∧
     takeTurn rand_out hidden player played k =
       Some (reshuffle rand_out hidden1 hand' played' k)) ∧
  (∀ drawn hidden2,
     (∀ card, card ∈ cards player → ¬ playable card top) →
     drawCard hidden1 = Some (drawn, hidden2) →
     let hand' := mkDeck (cards player ++ [drawn]) (topCard player) in
     findMatch player top = None ∧
     playOrDraw hidden1 player played top = Some (hidden2, hand', played) ∧
     takeTurn rand_out hidden player played k =
       Some (reshuffle rand_out hidden2 hand' played k)).
Proof.
  intros Htop. split.
  - intros i card Hfirst hand' played'.
    pose proof (playOrDraw_play hidden1 player played top i card Hfirst) as Hplay.
    rewrite delete_take_drop in Hplay.
    split; [apply findMatch_Some; eauto|]. split; [exact Hplay|].
    by apply (takeTurn_steps _ _ _ _ _ top hidden1).
  - intros drawn hidden2 Hnone Hdraw hand'.
    pose proof (playOrDraw_draw hidden1 player played top drawn hidden2
                  Hnone Hdraw) as Hstep.
    split; [by apply findMatch_None|]. split; [exact Hstep|].
    by apply (takeTurn_steps _ _ _ _ _ top hidden1).
Qed.

(** C4. When the draw pile is empty after the play-or-draw step,
    [takeTurn] ends with: the draw pile equal to the shuffle of the whole
    discard pile as it stood after that step (so with the card played in
    this turn, if any), taken in its order; an empty discard pile whose
    [topCard] has rank value 0, the empty sentinel; and a draw pile with
    exactly as many cards as the discard pile held. *)
Theorem C4_reshuffle_on_empty_draw_pile (rand_out : nat → nat)
    (hidden player played : DeckOfCards) (k : nat)
    (top : PlayingCard) (hidden1 hidden2 player2 played2 : DeckOfCards) :
  chooseTopCard hidden played = Some (top, hidden1) →
  playOrDraw hidden1 player played top = Some (hidden2, player2, played2) →
  size hidden2 = 0 →
  ∃ r, takeTurn rand_out hidden player played k = Some r ∧
    t_hidden r =
      (shuffleDeck rand_out (mkDeck (cards played2) (topCard hidden2)) k).1 ∧
    cards (t_hidden r) ≡ₚ cards played2 ∧
    size (t_hidden r) = size played2 ∧
    cards (t_played r) = [] ∧
    Rank_val (rank (topCard (t_played r))) = 0%Z ∧
    t_player r = player2.
Proof.
  intros Htop Hstep Hempty.
  exists (reshuffle rand_out hidden2 player2 played2 k).
  split; [by apply (takeTurn_steps _ _ _ _ _ top hidden1)|].
  rewrite reshuffle_empty by exact Hempty. cbn [t_hidden t_played t_player].
  split; [reflexivity|].
  split; [exact (shuffleDeck_perm rand_out (mkDeck (cards played2) _) k)|].
  split; [exact (shuffleDeck_size rand_out (mkDeck (cards played2) _) k)|].
  done.
Qed.

(** C10. A [takeTurn] call that succeeds changes the size of the hand by
    exactly one: it is one smaller when some card of the hand matches the
    reference card, and one larger when none does. Hence the hand is empty
    afterwards only if a card was played. *)
Theorem C10_hand_size_changes_by_one (rand_out : nat → nat)
    (hidden player played : DeckOfCards) (k : nat) (r : TurnResult) :
  takeTurn rand_out hidden player played k = Some r →
  ∃ top hidden1,
    chooseTopCard hidden played = Some (top, hidden1) ∧
    (((∃ card, card ∈ cards player ∧ playable card top) ∧
      S (size (t_player r)) = size player) ∨
     ((∀ card, card ∈ cards player → ¬ playable card top) ∧
      size (t_player r) = S (size player))) ∧
    (size (t_player r) = 0 →
     ∃ card, card ∈ cards player ∧ playable card top).
Proof.
  intros H. apply takeTurn_inv in H
    as (top & hidden1 & h2 & p2 & d2 & Htop & Hstep & ->).
  exists top, hidden1. split; [exact Htop|].
  rewrite reshuffle_player.
  apply playOrDraw_cases in Hstep
    as [(i & card & Hfirst & -> & -> & ->) | (Hnone & drawn & Hdraw & -> & ->)].
  - destruct Hfirst as (Hl & Hp & _).
    assert (Hin : ∃ c, c ∈ cards player ∧ playable c top).
    { exists card. split; [|exact Hp]. by eapply list_elem_of_lookup_2. }
    split; [|intros _; exact Hin]. left. split; [exact Hin|].
    unfold size; cbn [cards]. rewrite length_delete by eauto.
    apply lookup_lt_Some in Hl. lia.
  - rewrite addCardToDeck_size. split; [|intros E; lia].
    right. done.
Qed.

(** Amended C2. Across a [takeTurn] call that succeeds, the number of cards
    held by the draw pile, the hand and the discard pile together is
    unchanged when the rank field of [discardPile.topCard] is not 0 on
    entry; when the discard pile is empty with that rank field 0 (the
    state after set-up and after a reshuffle), the total drops by exactly
    one, the drawn reference card being stored nowhere. *)
Theorem C2_total_cards_amended (rand_out : nat → nat)
    (hidden player played : DeckOfCards) (k : nat) (r : TurnResult) :
  takeTurn rand_out hidden player played k = Some r →
  (rank (topCard played) ≠ Two →
   totalCards (t_hidden r) (t_player r) (t_played r)
   = totalCards hidden player played) ∧
  (cards played = [] → rank (topCard played) = Two →
   S (totalCards (t_hidden r) (t_player r) (t_played r))
   = totalCards hidden player played).
Proof.
  intros H. apply takeTurn_inv in H
    as (top & hidden1 & h2 & p2 & d2 & Htop & Hstep & ->).
  unfold totalCards. rewrite reshuffle_player.
  pose proof (reshuffle_total rand_out h2 p2 d2 k) as Hre. simpl in Hre.
  assert (Hstep' : size h2 + size p2 + size d2
                   = size hidden1 + size player + size played).
  { apply playOrDraw_cases in Hstep
      as [(i & card & Hfirst & -> & -> & ->) | (Hnone & drawn & Hdraw & -> & ->)].
    - destruct Hfirst as (Hl & _ & _). unfold size; cbn [cards].
      rewrite length_app, length_delete by eauto.
      apply lookup_lt_Some in Hl. simpl. lia.
    - apply drawCard_inv in Hdraw as [Hcs _].
      rewrite addCardToDeck_size. unfold size. rewrite Hcs, length_app.
      simpl. lia. }
  split.
  - intros Hrank. rewrite chooseTopCard_cached in Htop by exact Hrank.
    simplify_eq. lia.
  - intros _ Hrank. rewrite chooseTopCard_sentinel in Htop by exact Hrank.
    apply drawCard_inv in Htop as [Hcs _].
    assert (size hidden = S (size hidden1))
      by (unfold size; rewrite Hcs, length_app; simpl; lia).
    lia.
Qed.

(** ** The cached top card *)

Lemma playOrDraw_played hidden player played top h2 p2 d2 :
  playOrDraw hidden player played top = Some (h2, p2, d2) →
  (∃ card, d2 = mkDeck (cards played ++ [card]) card) ∨ d2 = played.
Proof.
  intros H. apply playOrDraw_cases in H
    as [(i & card & _ & _ & _ & ->) | (_ & drawn & _ & _ & ->)]; eauto.
Qed.

Lemma reshuffle_played rand_out hidden player played k :
  (size hidden = 0 →
   t_played (reshuffle rand_out hidden player played k)
   = mkDeck [] (mkCard (suit (topCard played)) Two)) ∧
  (size hidden ≠ 0 →
   t_played (reshuffle rand_out hidden player played k) = played).
Proof.
  split; intros H.
  - by rewrite reshuffle_empty.
  - by rewrite reshuffle_nonempty.
Qed.

Lemma takeTurn_topCardInSync rand_out hidden player played k r :
  topCardInSync played →
  takeTurn rand_out hidden player played k = Some r →
  topCardInSync (t_played r).
Proof.
  intros Hsync H. apply takeTurn_inv in H
    as (top & hidden1 & h2 & p2 & d2 & _ & Hstep & ->).
  assert (Hd2 : topCardInSync d2).
  { apply playOrDraw_played in Hstep as [[card ->] | ->]; [|exact Hsync].
    intros _. cbn [cards topCard]. apply last_snoc. }
  destruct (reshuffle_played rand_out h2 p2 d2 k) as [He Hn].
  destruct (decide (size h2 = 0)) as [E|E].
  - rewrite He by exact E. intros Hne. by cbn [cards] in Hne.
  - by rewrite Hn.
Qed.

Lemma mainSetup_playedDeck rand_out numPacks g :
  mainSetup rand_out numPacks = Some g → playedDeck g = emptyDeck.
Proof.
  unfold mainSetup. destruct (shuffleDeck _ _ _) as [hidden k].
  destruct (foldl _ _ _) as [[[hidden1 p1] p2]|]; simpl; [|done].
  intros H. by simplify_eq.
Qed.

Lemma gameTurn_inv rand_out g g' :
  gameTurn rand_out g = Some g' →
  ∃ hand r,
    (hand = player1 g ∨ hand = player2 g) ∧
    takeTurn rand_out (hiddenDeck g) hand (playedDeck g) (randCalls g) = Some r ∧
    playedDeck g' = t_played r ∧ hiddenDeck g' = t_hidden r.
Proof.
  unfold gameTurn. intros H. destruct (currentPlayer g).
  - destruct (takeTurn _ _ (player1 g) _ _) as [r|] eqn:E; [|done].
    exists (player1 g), r. simpl in H. simplify_eq. auto.
  - destruct (takeTurn _ _ (player2 g) _ _) as [r|] eqn:E; [|done].
    exists (player2 g), r. simpl in H. simplify_eq. auto.
Qed.

Lemma reachable_topCardInSync rand_out g :
  reachable rand_out g → topCardInSync (playedDeck g).
Proof.
  induction 1 as [numPacks g _ Hsetup | g g' _ IH _ Hturn].
  - rewrite (mainSetup_playedDeck _ _ _ Hsetup). intros Hne. by cbn in Hne.
  - apply gameTurn_inv in Hturn as (hand & r & _ & Hturn & -> & _).
    by eapply takeTurn_topCardInSync.
Qed.

(** C5. In every state the game loop reaches from the set-up of [main], a
    non-empty discard pile has its last card cached in [topCard]. In each
    further turn the play-or-draw step either appends a card to the discard
    pile and caches that very card, or leaves the pile and its cache alone;
    and the turn ends with the pile emptied and the rank of the cache set
    to 0 when the draw pile is empty after that step, and with the pile and
    cache of that step otherwise. *)
Theorem C5_topCard_in_sync (rand_out : nat → nat) (g : Game) :
  reachable rand_out g →
  topCardInSync (playedDeck g) ∧
  ∀ g', gameTurn rand_out g = Some g' →
    ∃ hand top hidden1 h2 p2 d2,
      chooseTopCard (hiddenDeck g) (playedDeck g) = Some (top, hidden1) ∧
      playOrDraw hidden1 hand (playedDeck g) top = Some (h2, p2, d2) ∧
      ((∃ card, d2 = mkDeck (cards (playedDeck g) ++ [card]) card) ∨
       d2 = playedDeck g) ∧
      (size h2 = 0 →
       playedDeck g' = mkDeck [] (mkCard (suit (topCard d2)) Two)) ∧
      (size h2 ≠ 0 → playedDeck g' = d2).
Proof.
  intros Hreach. split; [by apply (reachable_topCardInSync rand_out)|].
  intros g' Hturn.
  apply gameTurn_inv in Hturn as (hand & r & _ & Hturn & -> & _).
  apply takeTurn_inv in Hturn
    as (top & hidden1 & h2 & p2 & d2 & Htop & Hstep & ->).
  exists hand, top, hidden1, h2, p2, d2.
  split; [exact Htop|]. split; [exact Hstep|].
  split; [by eapply playOrDraw_played|].
  apply reshuffle_played.
Qed.

(** ** When a turn succeeds *)





Lemma firstPlayable_of_findMatch player top i card :
  findMatch player top = Some i → cards player !! i = Some card →
  firstPlayable (cards player) top i card.
Proof.
  intros Hfind Hl. apply findMatch_Some in Hfind as (card' & Hfirst).
  destruct Hfirst as (Hl' & Hrest). rewrite Hl in Hl'. injection Hl' as <-.
  by split.
Qed.

(** ** Concrete turns *)

(** C1, at a discard pile topped by a played Two. The first turn plays Two
    of Spade onto Five of Spade: afterwards the discard pile is non-empty
    and its last card, Two of Spade, is the cached [topCard]. In the next
    turn that top card is not used as the reference: since its rank value
    is 0, the test [topCard.rank == 0] takes it for the empty sentinel, one
    card (Nine of Diamond) is drawn from the draw pile as reference, and
    the hand plays Nine of Heart instead of Two of Club. *)
Theorem C1_played_Two_is_taken_for_empty_sentinel :
  takeTurn sample_rand two_hidden two_hand_first two_played_before 0
  = Some (mkTurn two_hidden (mkDeck [mkCard Diamond King] zeroCard)
                 two_played_after 0) ∧
  last (cards two_played_after) = Some (topCard two_played_after) ∧
  chooseTopCard two_hidden two_played_after
  = Some (mkCard Diamond Nine, mkDeck [mkCard Club Ace] zeroCard) ∧
  takeTurn sample_rand two_hidden two_hand_second two_played_after 0
  = Some (mkTurn (mkDeck [mkCard Club Ace] zeroCard)
                 (mkDeck [mkCard Club Two] zeroCard)
                 (mkDeck [mkCard Spade Five; mkCard Spade Two; mkCard Heart Nine]
                         (mkCard Heart Nine))
                 0).
Proof. repeat split; vm_compute; reflexivity. Qed.

(** C2 as stated fails right after set-up: with an empty discard pile, a
    draw pile of three cards and a hand of two cards that match neither
    drawn card, the turn succeeds and leaves 1 + 3 + 0 = 4 cards where
    there were 3 + 2 + 0 = 5. *)
Lemma C2_counterexample :
  takeTurn sample_rand sample_hidden_three sample_hand emptyDeck 0
  = Some (mkTurn (mkDeck [mkCard Club Nine] zeroCard)
                 (mkDeck [mkCard Club Two; mkCard Spade Five; mkCard Heart Ace]
                         zeroCard)
                 emptyDeck 0) ∧
  totalCards sample_hidden_three sample_hand emptyDeck = 5 ∧
  totalCards (mkDeck [mkCard Club Nine] zeroCard)
             (mkDeck [mkCard Club Two; mkCard Spade Five; mkCard Heart Ace]
                     zeroCard)
             emptyDeck = 4.
Proof. repeat split; vm_compute; reflexivity. Qed.

(** ** Sample instances *)

Lemma C9_witness :
  cards sample_hidden ≠ [] ∧
  ∃ card deck',
    drawCard sample_hidden = Some (card, deck') ∧
    last (cards sample_hidden) = Some card ∧
    cards sample_hidden = cards deck' ++ [card] ∧
    S (size deck') = size sample_hidden ∧
    addCardToDeck deck' card = sample_hidden ∧
    size (addCardToDeck deck' card) = size sample_hidden ∧
    cards (addCardToDeck deck' card) ≡ₚ cards sample_hidden.
Proof.
  assert (H : cards sample_hidden ≠ []) by (simpl; discriminate).
  split; [exact H|]. exact (C9_drawCard_then_addCardToDeck sample_hidden H).
Defined.

Lemma C6_witness :
  (1 ≤ 2 ≤ 10)%Z ∧
  size (initializeDeck 2) = Z.to_nat (52 * 2) ∧
  (∀ card, occurrences card (cards (initializeDeck 2)) = Z.to_nat 2) ∧
  (∀ pack s r, (0 ≤ pack < 2)%Z →
     cards (initializeDeck 2)
       !! Z.to_nat (52 * pack + 13 * Suit_val s + Rank_val r)
     = Some (mkCard s r)).
Proof.
  assert (H : (1 ≤ 2 ≤ 10)%Z) by lia.
  split; [exact H|]. exact (C6_initializeDeck 2 H).
Defined.

Lemma C8_witness :
  rank_sorted (cards sample_hand) ∧ customSort sample_hand = sample_hand.
Proof.
  assert (H : rank_sorted (cards sample_hand)).
  { apply Sorted_rank_sorted. repeat constructor. unfold rank_le. simpl. lia. }
  split; [exact H|].
  exact (proj1 (proj2 (C8_customSort_sorted_idempotent sample_hand)) H).
Defined.

(** The first two scenarios of the specification: Five of Spade, at index
    1, is played on Five of Heart; nothing can be played on Three of
    Diamond and Nine of Club is drawn. *)
Lemma C3_witness :
  (chooseTopCard sample_hidden sample_played_five
   = Some (mkCard Heart Five, sample_hidden) ∧
   firstPlayable (cards sample_hand) (mkCard Heart Five) 1 (mkCard Spade Five) ∧
   takeTurn sample_rand sample_hidden sample_hand sample_played_five 0
   = Some (reshuffle sample_rand sample_hidden
             (mkDeck [mkCard Club Two] zeroCard)
             (mkDeck [mkCard Heart Five; mkCard Spade Five] (mkCard Spade Five))
             0)) ∧
  (chooseTopCard sample_hidden sample_played_three
   = Some (mkCard Diamond Three, sample_hidden) ∧
   (∀ card, card ∈ cards sample_hand → ¬ playable card (mkCard Diamond Three)) ∧
   drawCard sample_hidden
   = Some (mkCard Club Nine, mkDeck [mkCard Heart Ace] zeroCard) ∧
   takeTurn sample_rand sample_hidden sample_hand sample_played_three 0
   = Some (reshuffle sample_rand (mkDeck [mkCard Heart Ace] zeroCard)
             (mkDeck [mkCard Club Two; mkCard Spade Five; mkCard Club Nine]
                     zeroCard)
             sample_played_three 0)).
Proof.
  split.
  - assert (Htop : chooseTopCard sample_hidden sample_played_five
                   = Some (mkCard Heart Five, sample_hidden))
      by (vm_compute; reflexivity).
    assert (Hfirst : firstPlayable (cards sample_hand) (mkCard Heart Five) 1
                       (mkCard Spade Five))
      by (apply firstPlayable_of_findMatch; vm_compute; reflexivity).
    split; [exact Htop|]. split; [exact Hfirst|].
    exact (proj2 (proj2 (proj1
      (C3_play_first_match_or_draw sample_rand sample_hidden sample_hand
         sample_played_five 0 _ _ Htop) 1 (mkCard Spade Five) Hfirst))).
  - assert (Htop : chooseTopCard sample_hidden sample_played_three
                   = Some (mkCard Diamond Three, sample_hidden))
      by (vm_compute; reflexivity).
    assert (Hnone : ∀ card, card ∈ cards sample_hand →
                      ¬ playable card (mkCard Diamond Three))
      by (apply findMatch_None; vm_compute; reflexivity).
    assert (Hdraw : drawCard sample_hidden
                    = Some (mkCard Club Nine, mkDeck [mkCard Heart Ace] zeroCard))
      by (vm_compute; reflexivity).
    split; [exact Htop|]. split; [exact Hnone|]. split; [exact Hdraw|].
    exact (proj2 (proj2 (proj2
      (C3_play_first_match_or_draw sample_rand sample_hidden sample_hand
         sample_played_three 0 _ _ Htop) _ _ Hnone Hdraw))).
Defined.

(** The third scenario of the specification: the draw pile holds one card,
    it is drawn, and the two cards of the discard pile become the draw
    pile. *)
Lemma C4_witness :
  chooseTopCard sample_hidden_one sample_played_three
  = Some (mkCard Diamond Three, sample_hidden_one) ∧
  playOrDraw sample_hidden_one sample_hand sample_played_three
    (mkCard Diamond Three)
  = Some (mkDeck [] zeroCard,
          mkDeck [mkCard Club Two; mkCard Spade Five; mkCard Club Nine] zeroCard,
          sample_played_three) ∧
  size (mkDeck [] zeroCard) = 0 ∧
  ∃ r,
    takeTurn sample_rand sample_hidden_one sample_hand sample_played_three 0
    = Some r ∧
    t_hidden r =
      (shuffleDeck sample_rand
         (mkDeck (cards sample_played_three) (topCard (mkDeck [] zeroCard))) 0).1 ∧
    cards (t_hidden r) ≡ₚ cards sample_played_three ∧
    size (t_hidden r) = size sample_played_three ∧
    cards (t_played r) = [] ∧
    Rank_val (rank (topCard (t_played r))) = 0%Z ∧
    t_player r
    = mkDeck [mkCard Club Two; mkCard Spade Five; mkCard Club Nine] zeroCard.
Proof.
  assert (Htop : chooseTopCard sample_hidden_one sample_played_three
                 = Some (mkCard Diamond Three, sample_hidden_one))
    by (vm_compute; reflexivity).
  assert (Hstep : playOrDraw sample_hidden_one sample_hand sample_played_three
                    (mkCard Diamond Three)
                  = Some (mkDeck [] zeroCard,
                          mkDeck [mkCard Club Two; mkCard Spade Five;
                                  mkCard Club Nine] zeroCard,
                          sample_played_three))
    by (vm_compute; reflexivity).
  assert (Hempty : size (mkDeck [] zeroCard) = 0) by reflexivity.
  split; [exact Htop|]. split; [exact Hstep|]. split; [exact Hempty|].
  exact (C4_reshuffle_on_empty_draw_pile sample_rand _ _ _ 0 _ _ _ _ _
           Htop Hstep Hempty).
Defined.

Lemma C10_witness :
  takeTurn sample_rand sample_hidden sample_hand sample_played_five 0
  = Some (mkTurn sample_hidden (mkDeck [mkCard Club Two] zeroCard)
            (mkDeck [mkCard Heart Five; mkCard Spade Five] (mkCard Spade Five)) 0) ∧
  ∃ top hidden1,
    chooseTopCard sample_hidden sample_played_five = Some (top, hidden1) ∧
    (((∃ card, card ∈ cards sample_hand ∧ playable card top) ∧
      S (size (mkDeck [mkCard Club Two] zeroCard)) = size sample_hand) ∨
     ((∀ card, card ∈ cards sample_hand → ¬ playable card top) ∧
      size (mkDeck [mkCard Club Two] zeroCard) = S (size sample_hand))) ∧
    (size (mkDeck [mkCard Club Two] zeroCard) = 0 →
     ∃ card, card ∈ cards sample_hand ∧ playable card top).
Proof.
  assert (H : takeTurn sample_rand sample_hidden sample_hand sample_played_five 0
              = Some (mkTurn sample_hidden (mkDeck [mkCard Club Two] zeroCard)
                        (mkDeck [mkCard Heart Five; mkCard Spade Five]
                                (mkCard Spade Five)) 0))
    by (vm_compute; reflexivity).
  split; [exact H|].
  exact (C10_hand_size_changes_by_one sample_rand _ _ _ _ _ H).
Defined.

(** The amended C2 on both of its cases: a turn on a discard pile topped
    by Five of Heart keeps the 5 cards, and the turn after set-up (empty
    discard pile, rank field 0) goes from 5 cards to 4. *)
Lemma C2_witness :
  (takeTurn sample_rand sample_hidden sample_hand sample_played_five 0
   = Some (mkTurn sample_hidden (mkDeck [mkCard Club Two] zeroCard)
             (mkDeck [mkCard Heart Five; mkCard Spade Five] (mkCard Spade Five)) 0) ∧
   rank (topCard sample_played_five) ≠ Two ∧
   totalCards sample_hidden (mkDeck [mkCard Club Two] zeroCard)
     (mkDeck [mkCard Heart Five; mkCard Spade Five] (mkCard Spade Five))
   = totalCards sample_hidden sample_hand sample_played_five) ∧
  (takeTurn sample_rand sample_hidden_three sample_hand emptyDeck 0
   = Some (mkTurn (mkDeck [mkCard Club Nine] zeroCard)
             (mkDeck [mkCard Club Two; mkCard Spade Five; mkCard Heart Ace]
                     zeroCard)
             emptyDeck 0) ∧
   cards emptyDeck = [] ∧ rank (topCard emptyDeck) = Two ∧
   S (totalCards (mkDeck [mkCard Club Nine] zeroCard)
        (mkDeck [mkCard Club Two; mkCard Spade Five; mkCard Heart Ace] zeroCard)
        emptyDeck)
   = totalCards sample_hidden_three sample_hand emptyDeck).
Proof.
  split.
  - assert (H : takeTurn sample_rand sample_hidden sample_hand
                  sample_played_five 0
                = Some (mkTurn sample_hidden (mkDeck [mkCard Club Two] zeroCard)
                          (mkDeck [mkCard Heart Five; mkCard Spade Five]
                                  (mkCard Spade Five)) 0))
      by (vm_compute; reflexivity).
    assert (Hrank : rank (topCard sample_played_five) ≠ Two)
      by (simpl; discriminate).
    split; [exact H|]. split; [exact Hrank|].
    exact (proj1 (C2_total_cards_amended sample_rand _ _ _ _ _ H) Hrank).
  - assert (H : takeTurn sample_rand sample_hidden_three sample_hand emptyDeck 0
                = Some (mkTurn (mkDeck [mkCard Club Nine] zeroCard)
                          (mkDeck [mkCard Club Two; mkCard Spade Five;
                                   mkCard Heart Ace] zeroCard)
                          emptyDeck 0))
      by (vm_compute; reflexivity).
    split; [exact H|]. split; [reflexivity|]. split; [reflexivity|].
    exact (proj2 (C2_total_cards_amended sample_rand _ _ _ _ _ H)
             eq_refl eq_refl).
Defined.

(** C5 after the set-up for one pack and the first turn, in which player
    one plays a card: the state is reachable and its discard pile is not
    empty. *)
Lemma C5_witness :
  mainSetup sample_rand 1 = Some sample_setup ∧
  isGameFinished (player1 sample_setup) (player2 sample_setup) = false ∧
  gameTurn sample_rand sample_setup = Some sample_first_turn ∧
  cards (playedDeck sample_first_turn) ≠ [] ∧
  reachable sample_rand sample_first_turn ∧
  topCardInSync (playedDeck sample_first_turn) ∧
  last (cards (playedDeck sample_first_turn))
  = Some (topCard (playedDeck sample_first_turn)).
Proof.
  assert (H0 : mainSetup sample_rand 1 = Some sample_setup)
    by (vm_compute; reflexivity).
  assert (Hgo : isGameFinished (player1 sample_setup) (player2 sample_setup)
                = false) by (vm_compute; reflexivity).
  assert (H1 : gameTurn sample_rand sample_setup = Some sample_first_turn)
    by (vm_compute; reflexivity).
  assert (Hne : cards (playedDeck sample_first_turn) ≠ [])
    by (vm_compute; discriminate).
  assert (Hreach : reachable sample_rand sample_first_turn).
  { apply (reach_turn sample_rand sample_setup sample_first_turn).
    - apply (reach_setup sample_rand 1 sample_setup); [lia|exact H0].
    - exact Hgo.
    - exact H1. }
  pose proof (proj1 (C5_topCard_in_sync sample_rand sample_first_turn Hreach))
    as Hsync.
  split; [exact H0|]. split; [exact Hgo|]. split; [exact H1|].
  split; [exact Hne|]. split; [exact Hreach|]. split; [exact Hsync|].
  exact (Hsync Hne).
Defined.

(** * Further properties of the code *)

(** ** Deck container *)



(** X2. A card added with [addCardToDeck] is the one the next [drawCard]
    returns, and that draw gives back the deck as it was before the card
    was added, whatever the deck (also an empty one). *)
Theorem X2_addCardToDeck_then_drawCard (deck : DeckOfCards) (card : PlayingCard) :
  drawCard (addCardToDeck deck card) = Some (card, deck).
Proof.
  assert (Hne : cards (addCardToDeck deck card) ≠ []).
  { simpl. intros E. by apply app_nil in E as [_ ?]. }
  destruct (drawCard_Some _ Hne) as (c & rest & Hcs & ->).
  simpl in Hcs. apply app_inj_tail in Hcs as [<- <-].
  simpl. by destruct deck.
Qed.

(** ** Shuffling *)

Lemma shuffleLoop_ext r1 r2 i : ∀ cs k,
  (∀ k', k ≤ k' < k + i → r1 k' = r2 k') →
  shuffleLoop r1 i cs k = shuffleLoop r2 i cs k.
Proof.
  induction i as [|i IH]; intros cs k Hext; [reflexivity|].
  cbn [shuffleLoop]. rewrite (Hext k) by lia. apply IH.
  intros k' Hk'. apply Hext. lia.
Qed.

Lemma swapCards_length cs i j : length (swapCards cs i j) = length cs.
Proof. by rewrite swapCards_perm. Qed.

Lemma swapCards_app pre suf i j :
  i < length pre → j < length pre →
  swapCards (pre ++ suf) i j = swapCards pre i j ++ suf.
Proof.
  intros Hi Hj. unfold swapCards.
  rewrite !lookup_app_l by lia.
  destruct (lookup_lt_is_Some_2 pre i Hi) as [a ->].
  destruct (lookup_lt_is_Some_2 pre j Hj) as [b ->].
  rewrite insert_app_l by lia.
  rewrite insert_app_l by (rewrite length_insert; lia). reflexivity.
Qed.

Lemma shuffleLoop_app r i : ∀ pre suf k,
  i < length pre →
  shuffleLoop r i (pre ++ suf) k
  = ((shuffleLoop r i pre k).1 ++ suf, (shuffleLoop r i pre k).2).
Proof.
  induction i as [|i IH]; intros pre suf k Hi; [reflexivity|].
  cbn [shuffleLoop].
  assert (Hj : r k `mod` (S i + 1) < length pre).
  { pose proof (Nat.mod_upper_bound (r k) (S i + 1)). lia. }
  rewrite swapCards_app by lia.
  apply IH. rewrite swapCards_length. lia.
Qed.


(** X4. [shuffleDeck] calls [rand()] exactly [size - 1] times, and not at
    all on a deck of at most one card, which it returns unchanged; it never
    touches [topCard]; and its result depends on no other value of [rand()]
    than those [size - 1] ones. *)
Theorem X4_shuffleDeck_rand_calls (rand_out : nat → nat)
    (deck : DeckOfCards) (k : nat) :
  (shuffleDeck rand_out deck k).2 = k + (size deck - 1) ∧
  topCard (shuffleDeck rand_out deck k).1 = topCard deck ∧
  (size deck ≤ 1 → shuffleDeck rand_out deck k = (deck, k)) ∧
  (∀ rand_out', (∀ k', k ≤ k' < k + (size deck - 1) → rand_out k' = rand_out' k') →
     shuffleDeck rand_out' deck k = shuffleDeck rand_out deck k).
Proof.
  split; [|split; [apply shuffleDeck_topCard|split]].
  - unfold shuffleDeck.
    pose proof (shuffleLoop_calls rand_out (size deck - 1) (cards deck) k) as H.
    by destruct (shuffleLoop _ _ _ _).
  - intros Hs. unfold shuffleDeck.
    replace (size deck - 1) with 0 by lia. simpl. by destruct deck.
  - intros r' Hext. unfold shuffleDeck.
    by rewrite (shuffleLoop_ext rand_out r').
Qed.

Lemma X4_witness :
  size sample_hidden_one ≤ 1 ∧
  shuffleDeck sample_rand sample_hidden_one 0 = (sample_hidden_one, 0).
Proof.
  assert (H : size sample_hidden_one ≤ 1) by (vm_compute; lia).
  split; [exact H|].
  exact (proj1 (proj2 (proj2
    (X4_shuffleDeck_rand_calls sample_rand sample_hidden_one 0))) H).
Defined.




(** ** Sorting *)

Lemma bubbleFrom_ofRank r m : ∀ a rest,
  ofRank r (bubbleFrom m a rest) = ofRank r (a :: rest).
Proof.
  unfold ofRank.
  induction m as [|m IH]; intros a rest; [reflexivity|].
  destruct rest as [|b rest]; [reflexivity|]. cbn [bubbleFrom].
  destruct (Rank_val (rank a) >? Rank_val (rank b))%Z eqn:Hab.
  - rewrite filter_cons, IH, !filter_cons.
    assert (Hne : rank a ≠ rank b) by (intros E; rewrite E in Hab; lia).
    destruct (decide (rank b = r)) as [Eb|Eb];
      destruct (decide (rank a = r)) as [Ea|Ea]; congruence.
  - rewrite filter_cons, IH, !(filter_cons _ a). reflexivity.
Qed.

Lemma bubblePass_ofRank r cs i : ofRank r (bubblePass cs i) = ofRank r cs.
Proof.
  destruct cs as [|a rest]; [reflexivity|].
  rewrite bubblePass_cons. apply bubbleFrom_ofRank.
Qed.

(** X6. [customSort] only reorders: the sorted deck holds the same cards
    with the same numbers of occurrences, has the same size and the same
    [topCard] field. *)
Theorem X6_customSort_permutation (deck : DeckOfCards) :
  cards (customSort deck) ≡ₚ cards deck ∧
  size (customSort deck) = size deck ∧
  topCard (customSort deck) = topCard deck ∧
  ∀ card, occurrences card (cards (customSort deck))
          = occurrences card (cards deck).
Proof.
  pose proof (customSort_perm deck) as H.
  split; [exact H|]. split; [unfold size; by rewrite H|].
  split; [reflexivity|]. intros card. by apply occurrences_perm.
Qed.

(** X7. [customSort] is stable: the cards of any one rank come out in the
    order in which they went in, since only a strictly greater rank is
    swapped past its neighbour. *)
Theorem X7_customSort_stable (deck : DeckOfCards) (r : Rank) :
  ofRank r (cards (customSort deck)) = ofRank r (cards deck).
Proof.
  unfold customSort; cbn [cards].
  generalize (seq 0 (size deck - 1)) as passes. intros passes.
  generalize (cards deck) as cs.
  induction passes as [|i passes IH]; intros cs; [reflexivity|].
  cbn [foldl]. rewrite IH. apply bubblePass_ofRank.
Qed.

(** ** takeTurn: failure and the cards it moves *)

Lemma drawCard_None_iff deck : drawCard deck = None ↔ cards deck = [].
Proof.
  split; [|apply drawCard_None].
  intros H. destruct (decide (cards deck = [])) as [E|Hne]; [exact E|].
  destruct (drawCard_Some deck Hne) as (c & rest & _ & Hd). congruence.
Qed.

Lemma playOrDraw_None hidden player played top :
  playOrDraw hidden player played top = None ↔
  cards hidden = [] ∧ ∀ card, card ∈ cards player → ¬ playable card top.
Proof.
  unfold playOrDraw. destruct (findMatch player top) as [i|] eqn:Hfind.
  - pose proof Hfind as Hf. apply findMatch_Some in Hf as (card & Hl & Hp & _).
    rewrite Hl. simpl. split; [done|].
    intros [_ Hnone]. exfalso. apply (Hnone card); [|exact Hp].
    by eapply list_elem_of_lookup_2.
  - pose proof (proj1 (findMatch_None _ _) Hfind) as Hnone.
    destruct (drawCard hidden) as [[drawn h']|] eqn:Hd; simpl.
    + split; [done|]. intros [E _]. apply drawCard_None in E. congruence.
    + apply drawCard_None_iff in Hd. done.
Qed.

Lemma takeTurn_None rand_out hidden player played k :
  takeTurn rand_out hidden player played k = None ↔
  chooseTopCard hidden played = None ∨
  ∃ top hidden1, chooseTopCard hidden played = Some (top, hidden1) ∧
    playOrDraw hidden1 player played top = None.
Proof.
  unfold takeTurn.
  destruct (chooseTopCard hidden played) as [[top hidden1]|]; simpl.
  - destruct (playOrDraw hidden1 player played top) as [[[h2 p2] d2]|] eqn:E;
      simpl.
    + split; [done|]. intros [?|(t & h & Heq & Hn)]; [done|]. congruence.
    + split; [|done]. intros _. right. eauto.
  - split; [|done]. by left.
Qed.

(** X9. [takeTurn] reaches a draw from an empty deck in exactly these
    cases: the rank field of the discard pile's [topCard] is 0 and the draw
    pile is empty, or holds a single card that no card of the hand matches;
    or that rank field is not 0, the draw pile is empty and no card of the
    hand matches [topCard]. *)
Theorem X9_takeTurn_fails_iff (rand_out : nat → nat)
    (hidden player played : DeckOfCards) (k : nat) :
  takeTurn rand_out hidden player played k = None ↔
  (rank (topCard played) = Two ∧
   (cards hidden = [] ∨
    ∃ top, cards hidden = [top] ∧
      ∀ card, card ∈ cards player → ¬ playable card top)) ∨
  (rank (topCard played) ≠ Two ∧ cards hidden = [] ∧
   ∀ card, card ∈ cards player → ¬ playable card (topCard played)).
Proof.
  rewrite takeTurn_None.
  destruct (decide (rank (topCard played) = Two)) as [Hr|Hr].
  - rewrite (chooseTopCard_sentinel _ _ Hr). split.
    + intros [Hd | (top & hidden1 & Hd & Hp)]; left; (split; [exact Hr|]).
      * left. by apply drawCard_None_iff.
      * right. apply drawCard_inv in Hd as [Hcs _].
        apply playOrDraw_None in Hp as [E Hnone].
        exists top. rewrite Hcs, E. done.
    + intros [[_ [E | (top & E & Hnone)]] | [Hne _]]; [| |done].
      * left. by apply drawCard_None.
      * right. exists top, (mkDeck [] (topCard hidden)). split.
        -- destruct (drawCard_Some hidden) as (c & rest & Hcs & Hd);
             [by rewrite E|].
           rewrite E in Hcs.
           apply (app_inj_tail [] rest top c) in Hcs as [<- <-]. exact Hd.
        -- by apply playOrDraw_None.
  - rewrite (chooseTopCard_cached _ _ Hr). split.
    + intros [?|(top & hidden1 & Heq & Hp)]; [done|]. simplify_eq.
      right. split; [exact Hr|]. exact (proj1 (playOrDraw_None _ _ _ _) Hp).
    + intros [[? _] | (_ & E & Hnone)]; [done|].
      right. exists (topCard played), hidden. split; [reflexivity|].
      by apply playOrDraw_None.
Qed.

Lemma takeTurn_cards rand_out hidden player played k r :
  takeTurn rand_out hidden player played k = Some r →
  ∃ top hidden1,
    chooseTopCard hidden played = Some (top, hidden1) ∧
    cards (t_hidden r) ++ cards (t_player r) ++ cards (t_played r)
    ≡ₚ cards hidden1 ++ cards player ++ cards played.
Proof.
  intros H. apply takeTurn_inv in H
    as (top & hidden1 & h2 & p2 & d2 & Htop & Hstep & ->).
  exists top, hidden1. split; [exact Htop|].
  assert (Hstep' : cards h2 ++ cards p2 ++ cards d2
                   ≡ₚ cards hidden1 ++ cards player ++ cards played).
  { apply playOrDraw_cases in Hstep
      as [(i & card & Hfirst & -> & -> & ->) | (Hnone & drawn & Hdraw & -> & ->)].
    - destruct Hfirst as (Hl & _ & _). cbn [cards].
      apply Permutation_app_head.
      rewrite (delete_Permutation (cards player) i card Hl) at 2.
      rewrite (Permutation_app_comm (cards played) [card]). simpl.
      by rewrite Permutation_middle.
    - apply drawCard_inv in Hdraw as [Hcs _]. rewrite Hcs. cbn [cards].
      rewrite <- !app_assoc. apply Permutation_app_head.
      rewrite (Permutation_app_comm (cards player) [drawn]).
      reflexivity. }
  rewrite <- Hstep'. clear Hstep'.
  destruct (decide (size h2 = 0)) as [E|E].
  - rewrite reshuffle_empty by exact E. cbn [t_hidden t_player t_played cards].
    rewrite (shuffleDeck_perm rand_out (mkDeck (cards d2) _) k). cbn [cards].
    destruct h2 as [[|? ?] ?]; [|done]. cbn [cards app].
    rewrite app_nil_r. apply Permutation_app_comm.
  - by rewrite reshuffle_nonempty.
Qed.

(** X10. A turn neither creates nor duplicates a card: after [takeTurn] the
    draw pile, the hand and the discard pile together hold exactly the
    cards they held before, less the reference card when one was drawn
    (rank field of [topCard] 0 on entry), which was the last card of the
    draw pile. *)
Theorem X10_takeTurn_keeps_the_cards (rand_out : nat → nat)
    (hidden player played : DeckOfCards) (k : nat) (r : TurnResult) :
  takeTurn rand_out hidden player played k = Some r →
  (rank (topCard played) ≠ Two →
   cards (t_hidden r) ++ cards (t_player r) ++ cards (t_played r)
   ≡ₚ cards hidden ++ cards player ++ cards played) ∧
  (rank (topCard played) = Two →
   ∃ top, last (cards hidden) = Some top ∧
     top :: cards (t_hidden r) ++ cards (t_player r) ++ cards (t_played r)
     ≡ₚ cards hidden ++ cards player ++ cards played).
Proof.
  intros H. apply takeTurn_cards in H as (top & hidden1 & Htop & Hperm).
  split; intros Hr.
  - rewrite chooseTopCard_cached in Htop by exact Hr. by simplify_eq.
  - rewrite chooseTopCard_sentinel in Htop by exact Hr.
    apply drawCard_inv in Htop as [Hcs _]. exists top.
    split; [rewrite Hcs; apply last_snoc|].
    rewrite Hperm, Hcs, <- app_assoc. simpl.
    by rewrite <- Permutation_middle.
Qed.

(** ** The set-up of main *)

Lemma deal_loop_None (l : list nat) :
  foldl (λ st (_ : nat), st ≫= dealRound) None l = None.
Proof. induction l as [|x l IH]; [reflexivity|exact IH]. Qed.

Lemma dealRound_inv hidden p1 p2 hidden' p1' p2' :
  dealRound (hidden, p1, p2) = Some (hidden', p1', p2') →
  ∃ c1 c2,
    cards hidden = cards hidden' ++ [c2; c1] ∧
    topCard hidden' = topCard hidden ∧
    p1' = addCardToDeck p1 c1 ∧ p2' = addCardToDeck p2 c2.
Proof.
  unfold dealRound. intros H.
  destruct (drawCard hidden) as [[c1 h1]|] eqn:Hd1; [|done]. simpl in H.
  destruct (drawCard h1) as [[c2 h2]|] eqn:Hd2; [|done]. simpl in H.
  apply drawCard_inv in Hd1 as [Hcs1 Ht1].
  apply drawCard_inv in Hd2 as [Hcs2 Ht2].
  simplify_eq. exists c1, c2.
  split; [rewrite Hcs1, Hcs2, <- app_assoc; reflexivity|].
  split; [congruence|done].
Qed.

Lemma deal_loop_inv n : ∀ k hidden p1 p2 hidden' p1' p2',
  foldl (λ st (_ : nat), st ≫= dealRound) (Some (hidden, p1, p2)) (seq k n)
  = Some (hidden', p1', p2') →
  ∃ d1 d2,
    length d1 = n ∧ length d2 = n ∧
    cards hidden = cards hidden' ++ reverse (dealtOrder d1 d2) ∧
    topCard hidden' = topCard hidden ∧
    p1' = mkDeck (cards p1 ++ d1) (topCard p1) ∧
    p2' = mkDeck (cards p2 ++ d2) (topCard p2).
Proof.
  induction n as [|n IH]; intros k hidden p1 p2 hidden' p1' p2' H.
  - simpl in H. simplify_eq. exists [], [].
    rewrite !app_nil_r. repeat split; try done; by destruct p1', p2'.
  - cbn [seq foldl] in H.
    change (Some (hidden, p1, p2) ≫= dealRound)
      with (dealRound (hidden, p1, p2)) in H.
    destruct (dealRound (hidden, p1, p2)) as [[[h1 q1] q2]|] eqn:Hd;
      [|by rewrite deal_loop_None in H].
    apply dealRound_inv in Hd as (c1 & c2 & Hcs & Ht & -> & ->).
    apply IH in H as (d1 & d2 & Hl1 & Hl2 & Hcs' & Ht' & -> & ->).
    exists (c1 :: d1), (c2 :: d2). cbn [length cards topCard addCardToDeck].
    split; [lia|]. split; [lia|]. split.
    + rewrite Hcs, Hcs'. unfold dealtOrder. cbn [zip_with].
      change (mjoin ([c1; c2] :: ?l)) with ([c1; c2] ++ mjoin l).
      rewrite reverse_app, <- app_assoc. reflexivity.
    + split; [congruence|]. by rewrite <- !app_assoc.
Qed.

Lemma dealtOrder_perm d1 : ∀ d2,
  length d1 = length d2 → dealtOrder d1 d2 ≡ₚ d1 ++ d2.
Proof.
  unfold dealtOrder.
  induction d1 as [|c1 d1 IH]; intros [|c2 d2] Hlen; simplify_eq/=; [done|].
  change (mjoin ([c1; c2] :: ?l)) with ([c1; c2] ++ mjoin l).
  rewrite IH by done. simpl. constructor.
  by rewrite <- Permutation_middle.
Qed.

Lemma mainSetup_inv rand_out numPacks g :
  mainSetup rand_out numPacks = Some g →
  ∃ d1 d2,
    length d1 = 8 ∧ length d2 = 8 ∧
    cards (shuffleDeck rand_out (initializeDeck numPacks) 0).1
    = cards (hiddenDeck g) ++ reverse (dealtOrder d1 d2) ∧
    player1 g = customSort (mkDeck d1 zeroCard) ∧
    player2 g = customSort (mkDeck d2 zeroCard) ∧
    playedDeck g = emptyDeck ∧ currentPlayer g = PlayerOne ∧
    randCalls g = (shuffleDeck rand_out (initializeDeck numPacks) 0).2.
Proof.
  unfold mainSetup.
  destruct (shuffleDeck rand_out (initializeDeck numPacks) 0) as [hidden k].
  destruct (foldl _ _ _) as [[[hidden1 p1] p2]|] eqn:Hdeal; simpl; [|done].
  intros H. simplify_eq. cbn [hiddenDeck player1 player2 playedDeck
    currentPlayer randCalls fst snd].
  apply deal_loop_inv in Hdeal as (d1 & d2 & Hl1 & Hl2 & Hcs & _ & -> & ->).
  exists d1, d2. done.
Qed.

Lemma customSort_size deck : size (customSort deck) = size deck.
Proof. unfold size. by rewrite customSort_perm. Qed.

Lemma mainSetup_cards rand_out numPacks g :
  mainSetup rand_out numPacks = Some g →
  size (player1 g) = 8 ∧ size (player2 g) = 8 ∧
  cards (playedDeck g) = [] ∧ currentPlayer g = PlayerOne ∧
  allCards g ≡ₚ cards (initializeDeck numPacks).
Proof.
  intros H. apply mainSetup_inv in H
    as (d1 & d2 & Hl1 & Hl2 & Hcs & Hp1 & Hp2 & Hpl & Hcur & _).
  rewrite Hp1, Hp2, !customSort_size. unfold size at 1 2. cbn [cards].
  split; [exact Hl1|]. split; [exact Hl2|]. rewrite Hpl.
  split; [reflexivity|]. split; [exact Hcur|].
  unfold allCards. rewrite Hp1, Hp2, Hpl, !customSort_perm. cbn [cards].
  rewrite app_nil_r, <- (shuffleDeck_perm rand_out (initializeDeck numPacks) 0).
  rewrite Hcs, reverse_Permutation, dealtOrder_perm by congruence.
  reflexivity.
Qed.

(** X15. When the set-up of [main] succeeds, each hand holds 8 cards in
    ascending order of rank, the discard pile is the zeroed empty deck,
    player one is to move, [rand()] has been called once for each card of
    the pack set but one, and the draw pile and the two hands together are
    a rearrangement of the deck that [initializeDeck] built, the draw pile
    holding all but 16 of its cards. *)
Theorem X15_mainSetup_state (rand_out : nat → nat) (numPacks : Z) (g : Game) :
  mainSetup rand_out numPacks = Some g →
  size (player1 g) = 8 ∧ size (player2 g) = 8 ∧
  rank_sorted (cards (player1 g)) ∧ rank_sorted (cards (player2 g)) ∧
  playedDeck g = emptyDeck ∧ currentPlayer g = PlayerOne ∧
  randCalls g = 52 * Z.to_nat numPacks - 1 ∧
  allCards g ≡ₚ cards (initializeDeck numPacks) ∧
  size (hiddenDeck g) + 16 = 52 * Z.to_nat numPacks.
Proof.
  intros H. pose proof (mainSetup_cards _ _ _ H) as (H1 & H2 & _ & Hcur & Hall).
  pose proof (mainSetup_inv _ _ _ H)
    as (d1 & d2 & _ & _ & _ & Hp1 & Hp2 & Hpl & _ & Hk).
  split; [exact H1|]. split; [exact H2|].
  split; [rewrite Hp1; apply Sorted_rank_sorted, customSort_Sorted|].
  split; [rewrite Hp2; apply Sorted_rank_sorted, customSort_Sorted|].
  split; [exact Hpl|]. split; [exact Hcur|].
  assert (Hsize : size (initializeDeck numPacks) = 52 * Z.to_nat numPacks).
  { rewrite initializeDeck_cards. unfold size. cbn [cards]. apply length_packs. }
  split.
  - rewrite Hk. unfold shuffleDeck.
    pose proof (shuffleLoop_calls rand_out (size (initializeDeck numPacks) - 1)
                  (cards (initializeDeck numPacks)) 0) as Hc.
    destruct (shuffleLoop _ _ _ _). simpl in *. lia.
  - split; [exact Hall|].
    apply Permutation_length in Hall. unfold allCards in Hall.
    rewrite !length_app, Hpl in Hall. unfold size in *. simpl in Hall. lia.
Qed.

(** X16. The deal of [main] takes the cards from the top of the shuffled
    draw pile alternately, player one first: the shuffled pile is the draw
    pile left after the deal followed by the 16 dealt cards in reverse
    order of dealing, and each hand is [customSort] applied to the 8 cards
    that player received, in the order received. *)
Theorem X16_mainSetup_deal_order (rand_out : nat → nat) (numPacks : Z) (g : Game) :
  mainSetup rand_out numPacks = Some g →
  ∃ d1 d2,
    length d1 = 8 ∧ length d2 = 8 ∧
    cards (shuffleDeck rand_out (initializeDeck numPacks) 0).1
    = cards (hiddenDeck g) ++ reverse (dealtOrder d1 d2) ∧
    player1 g = customSort (mkDeck d1 zeroCard) ∧
    player2 g = customSort (mkDeck d2 zeroCard).
Proof.
  intros H. apply mainSetup_inv in H
    as (d1 & d2 & Hl1 & Hl2 & Hcs & Hp1 & Hp2 & _).
  by exists d1, d2.
Qed.

(** ** The game loop *)

Lemma gameTurn_takeTurn rand_out g g' :
  gameTurn rand_out g = Some g' →
  ∃ r,
    takeTurn rand_out (hiddenDeck g) (currentHand g) (playedDeck g) (randCalls g)
    = Some r ∧
    hiddenDeck g' = t_hidden r ∧ playedDeck g' = t_played r ∧
    waitingHand g' = t_player r ∧ currentHand g' = waitingHand g ∧
    currentPlayer g' ≠ currentPlayer g ∧ randCalls g' = t_rand r.
Proof.
  unfold gameTurn, currentHand, waitingHand. intros H.
  destruct (currentPlayer g).
  - destruct (takeTurn _ _ (player1 g) _ _) as [r|] eqn:E; [|done].
    simpl in H. simplify_eq. exists r. done.
  - destruct (takeTurn _ _ (player2 g) _ _) as [r|] eqn:E; [|done].
    simpl in H. simplify_eq. exists r. done.
Qed.

Lemma isGameFinished_false p1 p2 :
  isGameFinished p1 p2 = false ↔ size p1 ≠ 0 ∧ size p2 ≠ 0.
Proof.
  unfold isGameFinished. rewrite orb_false_iff, !Nat.eqb_neq. done.
Qed.

Lemma isGameFinished_hands g :
  isGameFinished (player1 g) (player2 g) = false ↔
  size (currentHand g) ≠ 0 ∧ size (waitingHand g) ≠ 0.
Proof.
  rewrite isGameFinished_false. unfold currentHand, waitingHand.
  destruct (currentPlayer g); tauto.
Qed.

Lemma reachable_currentHand rand_out g :
  reachable rand_out g → size (currentHand g) ≠ 0.
Proof.
  induction 1 as [numPacks g _ Hsetup | g g' _ IH Hgo Hturn].
  - apply mainSetup_cards in Hsetup as (H1 & _ & _ & Hcur & _).
    unfold currentHand. rewrite Hcur, H1. done.
  - apply gameTurn_takeTurn in Hturn as (r & _ & _ & _ & _ & -> & _).
    by apply isGameFinished_hands in Hgo as [_ ?].
Qed.

(** X12. In every state the game loop reaches from the set-up of [main],
    the player whose turn it is holds at least one card; so the game is
    finished exactly when the hand of the other player, the one who moved
    last, is empty, and the two hands are never both empty. *)
Theorem X12_only_the_last_mover_can_be_out (rand_out : nat → nat) (g : Game) :
  reachable rand_out g →
  size (currentHand g) ≠ 0 ∧
  (isGameFinished (player1 g) (player2 g) = true ↔ size (waitingHand g) = 0) ∧
  ¬ (size (player1 g) = 0 ∧ size (player2 g) = 0).
Proof.
  intros Hreach. pose proof (reachable_currentHand _ _ Hreach) as Hcur.
  split; [exact Hcur|]. split.
  - pose proof (isGameFinished_hands g) as Hiff.
    destruct (isGameFinished (player1 g) (player2 g)).
    + split; [|done]. intros _.
      destruct (decide (size (waitingHand g) = 0)) as [E|E]; [exact E|].
      pose proof (proj2 Hiff (conj Hcur E)) as Habs. discriminate Habs.
    + split; [done|]. intros E. by destruct (proj1 Hiff eq_refl) as [_ ?].
  - intros [E1 E2]. unfold currentHand in Hcur.
    destruct (currentPlayer g); congruence.
Qed.

Lemma takeTurn_piles rand_out hidden player played k r :
  (cards played = [] → rank (topCard played) = Two) →
  takeTurn rand_out hidden player played k = Some r →
  (cards (t_played r) = [] → rank (topCard (t_played r)) = Two) ∧
  (cards (t_hidden r) = [] → cards (t_played r) = []).
Proof.
  intros Hinv H. apply takeTurn_inv in H
    as (top & hidden1 & h2 & p2 & d2 & _ & Hstep & ->).
  destruct (decide (size h2 = 0)) as [E|E].
  - rewrite reshuffle_empty by exact E. done.
  - rewrite reshuffle_nonempty by exact E. cbn [t_played t_hidden]. split.
    + apply playOrDraw_played in Hstep as [[card ->] | ->]; [|exact Hinv].
      cbn [cards]. intros Hnil. by apply app_nil in Hnil as [_ ?].
    + intros Hnil. unfold size in E. rewrite Hnil in E. done.
Qed.

Lemma reachable_piles rand_out g :
  reachable rand_out g →
  (cards (playedDeck g) = [] → rank (topCard (playedDeck g)) = Two) ∧
  (cards (hiddenDeck g) = [] → cards (playedDeck g) = []).
Proof.
  induction 1 as [numPacks g _ Hsetup | g g' _ IH _ Hturn].
  - rewrite (mainSetup_playedDeck _ _ _ Hsetup). done.
  - apply gameTurn_takeTurn in Hturn as (r & Hturn & -> & -> & _).
    eapply takeTurn_piles; [|exact Hturn]. apply IH.
Qed.

(** X13. In every state the game loop reaches, an empty discard pile has
    rank field 0 in its [topCard] (so the next turn draws its reference
    card), and the draw pile is empty only if the discard pile is empty as
    well; in that state the next turn draws from an empty deck. *)
Theorem X13_empty_piles (rand_out : nat → nat) (g : Game) :
  reachable rand_out g →
  (cards (playedDeck g) = [] → rank (topCard (playedDeck g)) = Two) ∧
  (cards (hiddenDeck g) = [] →
   cards (playedDeck g) = [] ∧ gameTurn rand_out g = None).
Proof.
  intros Hreach. destruct (reachable_piles _ _ Hreach) as [H1 H2].
  split; [exact H1|]. intros Hh. split; [by apply H2|].
  assert (Hfail : ∀ hand,
    takeTurn rand_out (hiddenDeck g) hand (playedDeck g) (randCalls g) = None).
  { intros hand. apply takeTurn_None. left.
    rewrite chooseTopCard_sentinel by (by apply H1, H2).
    by apply drawCard_None. }
  unfold gameTurn. destruct (currentPlayer g); by rewrite Hfail.
Qed.




Lemma startGame_reachable rand_out fuel : ∀ g g',
  reachable rand_out g →
  startGame rand_out fuel g = Some g' →
  reachable rand_out g' ∧ isGameFinished (player1 g') (player2 g') = true.
Proof.
  induction fuel as [|fuel IH]; intros g g' Hreach H; cbn [startGame] in H.
  - destruct (isGameFinished (player1 g) (player2 g)) eqn:Hfin; [|done].
    by simplify_eq.
  - destruct (isGameFinished (player1 g) (player2 g)) eqn:Hfin.
    + by simplify_eq.
    + destruct (gameTurn rand_out g) as [g1|] eqn:Hturn; [|done].
      simpl in H. apply (IH g1 g'); [|exact H].
      by apply (reach_turn rand_out g g1).
Qed.

(** X17. When [startGame], started in a state reached from the set-up of
    [main], comes to "Game over!", the final state is itself such a state
    and is finished, exactly one hand is empty, and it is the hand of the
    player who made the last move; a state that is already finished is
    returned without any turn being taken. *)
Theorem X17_startGame_result (rand_out : nat → nat) (fuel : nat) (g g' : Game) :
  reachable rand_out g →
  startGame rand_out fuel g = Some g' →
  reachable rand_out g' ∧
  isGameFinished (player1 g') (player2 g') = true ∧
  size (waitingHand g') = 0 ∧ size (currentHand g') ≠ 0 ∧
  (isGameFinished (player1 g) (player2 g) = true → g' = g).
Proof.
  intros Hreach H.
  destruct (startGame_reachable _ _ _ _ Hreach H) as [Hreach' Hfin].
  pose proof (reachable_currentHand _ _ Hreach') as Hcur.
  split; [exact Hreach'|]. split; [exact Hfin|]. split; [|split; [exact Hcur|]].
  - destruct (decide (size (waitingHand g') = 0)) as [E|E]; [exact E|].
    pose proof (proj2 (isGameFinished_hands g') (conj Hcur E)). congruence.
  - intros Hg. destruct fuel; cbn [startGame] in H; rewrite Hg in H;
      by simplify_eq.
Qed.

(** ** Text output and the prompt *)

Lemma displayLine_is_Some card :
  is_Some (displayLine card) ↔ rank card = Two ∨ rank card = Three.
Proof.
  unfold displayLine. destruct card as [s []]; simpl; split;
    first [ by intros [? ?] | by intros [?|?] | by eexists | by auto ].
Qed.

(** X18. As [rankToString] is written, with cases for [Two] and [Three]
    only, [displayDeck] has a defined output exactly for the decks whose
    cards all have rank Two or Three; the output then has one line per
    card, in deck order, of the form rank, " of ", suit, line feed.
    [suitToString] gives different texts for different suits. *)
Theorem X18_displayDeck_defined_iff (deck : DeckOfCards) :
  (is_Some (displayDeck deck) ↔
   ∀ card, card ∈ cards deck → rank card = Two ∨ rank card = Three) ∧
  (∀ lines, displayDeck deck = Some lines →
     length lines = size deck ∧
     ∀ i card, cards deck !! i = Some card →
       ∃ r, rankToString (rank card) = Some r ∧
         lines !! i = Some (r +:+ " of " +:+ suitToString (suit card) +:+ newline)) ∧
  (∀ s1 s2, suitToString s1 = suitToString s2 → s1 = s2).
Proof.
  unfold displayDeck. split; [|split].
  - rewrite mapM_is_Some, Forall_forall. split.
    + intros H card Hin. by apply displayLine_is_Some, H.
    + intros H card Hin. by apply displayLine_is_Some, H.
  - intros lines H. apply mapM_Some in H. split.
    + symmetry. by apply Forall2_length in H.
    + intros i card Hl.
      destruct (Forall2_lookup_l _ _ _ _ _ H Hl) as (line & Hline & Hd).
      unfold displayLine in Hd.
      destruct (rankToString (rank card)) as [r|]; [|done].
      exists r. simpl in Hd. by simplify_eq.
  - intros [] []; simpl; intros H; first [reflexivity | discriminate H].
Qed.

Lemma X18_witness :
  (∀ card, card ∈ cards sample_low → rank card = Two ∨ rank card = Three) ∧
  is_Some (displayDeck sample_low).
Proof.
  assert (H : ∀ card, card ∈ cards sample_low →
                rank card = Two ∨ rank card = Three).
  { intros card Hin. simpl in Hin.
    apply elem_of_cons in Hin as [->|Hin]; [by left|].
    apply list_elem_of_singleton in Hin as ->. by right. }
  split; [exact H|].
  exact (proj2 (proj1 (X18_displayDeck_defined_iff sample_low)) H).
Defined.


(** ** Further sample instances *)

Lemma X9_witness :
  (rank (topCard emptyDeck) = Two ∧ cards emptyDeck = []) ∧
  takeTurn sample_rand emptyDeck sample_hand emptyDeck 0 = None.
Proof.
  assert (H : rank (topCard emptyDeck) = Two ∧ cards emptyDeck = [])
    by (split; reflexivity).
  split; [exact H|].
  apply (proj2 (X9_takeTurn_fails_iff sample_rand emptyDeck sample_hand
                  emptyDeck 0)).
  left. split; [exact (proj1 H)|]. left. exact (proj2 H).
Defined.

Lemma X10_witness :
  takeTurn sample_rand sample_hidden sample_hand sample_played_five 0
  = Some (mkTurn sample_hidden (mkDeck [mkCard Club Two] zeroCard)
            (mkDeck [mkCard Heart Five; mkCard Spade Five] (mkCard Spade Five)) 0) ∧
  rank (topCard sample_played_five) ≠ Two ∧
  cards sample_hidden ++ [mkCard Club Two]
    ++ [mkCard Heart Five; mkCard Spade Five]
  ≡ₚ cards sample_hidden ++ cards sample_hand ++ cards sample_played_five.
Proof.
  assert (H : takeTurn sample_rand sample_hidden sample_hand
                sample_played_five 0
              = Some (mkTurn sample_hidden (mkDeck [mkCard Club Two] zeroCard)
                        (mkDeck [mkCard Heart Five; mkCard Spade Five]
                                (mkCard Spade Five)) 0))
    by (vm_compute; reflexivity).
  assert (Hrank : rank (topCard sample_played_five) ≠ Two)
    by (simpl; discriminate).
  split; [exact H|]. split; [exact Hrank|].
  exact (proj1 (X10_takeTurn_keeps_the_cards sample_rand _ _ _ _ _ H) Hrank).
Defined.

Lemma sample_setup_eq : mainSetup sample_rand 1 = Some sample_setup.
Proof. vm_compute. reflexivity. Qed.

Lemma sample_first_turn_reachable : reachable sample_rand sample_first_turn.
Proof.
  apply (reach_turn sample_rand sample_setup sample_first_turn).
  - apply (reach_setup sample_rand 1 sample_setup); [lia|exact sample_setup_eq].
  - vm_compute. reflexivity.
  - vm_compute. reflexivity.
Qed.

Lemma X12_witness :
  reachable sample_rand sample_first_turn ∧
  size (currentHand sample_first_turn) ≠ 0 ∧
  (isGameFinished (player1 sample_first_turn) (player2 sample_first_turn) = true
   ↔ size (waitingHand sample_first_turn) = 0) ∧
  ¬ (size (player1 sample_first_turn) = 0 ∧ size (player2 sample_first_turn) = 0).
Proof.
  split; [exact sample_first_turn_reachable|].
  exact (X12_only_the_last_mover_can_be_out sample_rand sample_first_turn
           sample_first_turn_reachable).
Defined.

Lemma X13_witness :
  reachable sample_rand sample_setup ∧
  cards (playedDeck sample_setup) = [] ∧
  rank (topCard (playedDeck sample_setup)) = Two.
Proof.
  assert (H : reachable sample_rand sample_setup)
    by (apply (reach_setup sample_rand 1); [lia|exact sample_setup_eq]).
  assert (Hnil : cards (playedDeck sample_setup) = []) by reflexivity.
  split; [exact H|]. split; [exact Hnil|].
  exact (proj1 (X13_empty_piles sample_rand sample_setup H) Hnil).
Defined.


Lemma X15_witness :
  mainSetup sample_rand 1 = Some sample_setup ∧
  size (player1 sample_setup) = 8 ∧ size (player2 sample_setup) = 8 ∧
  rank_sorted (cards (player1 sample_setup)) ∧
  rank_sorted (cards (player2 sample_setup)) ∧
  playedDeck sample_setup = emptyDeck ∧ currentPlayer sample_setup = PlayerOne ∧
  randCalls sample_setup = 52 * Z.to_nat 1 - 1 ∧
  allCards sample_setup ≡ₚ cards (initializeDeck 1) ∧
  size (hiddenDeck sample_setup) + 16 = 52 * Z.to_nat 1.
Proof.
  split; [exact sample_setup_eq|].
  exact (X15_mainSetup_state sample_rand 1 sample_setup sample_setup_eq).
Defined.

Lemma X16_witness :
  mainSetup sample_rand 1 = Some sample_setup ∧
  ∃ d1 d2,
    length d1 = 8 ∧ length d2 = 8 ∧
    cards (shuffleDeck sample_rand (initializeDeck 1) 0).1
    = cards (hiddenDeck sample_setup) ++ reverse (dealtOrder d1 d2) ∧
    player1 sample_setup = customSort (mkDeck d1 zeroCard) ∧
    player2 sample_setup = customSort (mkDeck d2 zeroCard).
Proof.
  split; [exact sample_setup_eq|].
  exact (X16_mainSetup_deal_order sample_rand 1 sample_setup sample_setup_eq).
Defined.

(** The sample game is over after 47 turns, won by player one. *)
Lemma X17_witness :
  reachable sample_rand sample_setup ∧
  startGame sample_rand 100 sample_setup = Some sample_final ∧
  startGame sample_rand 46 sample_setup = None ∧
  size (player1 sample_final) = 0 ∧
  reachable sample_rand sample_final ∧
  isGameFinished (player1 sample_final) (player2 sample_final) = true ∧
  size (waitingHand sample_final) = 0 ∧ size (currentHand sample_final) ≠ 0.
Proof.
  assert (H : reachable sample_rand sample_setup)
    by (apply (reach_setup sample_rand 1); [lia|exact sample_setup_eq]).
  assert (Hrun : startGame sample_rand 100 sample_setup = Some sample_final)
    by (vm_compute; reflexivity).
  split; [exact H|]. split; [exact Hrun|].
  split; [vm_compute; reflexivity|]. split; [vm_compute; reflexivity|].
  pose proof (X17_startGame_result sample_rand 100 sample_setup sample_final
                H Hrun) as (H1 & H2 & H3 & H4 & _).
  split; [exact H1|]. split; [exact H2|]. split; [exact H3|exact H4].
Defined.

(** ** More on shuffling and on turns *)

Lemma swapCards_lookup_l cs i j :
  i < length cs → j < length cs → swapCards cs i j !! i = cs !! j.
Proof.
  intros Hi Hj. unfold swapCards.
  destruct (lookup_lt_is_Some_2 cs i Hi) as [a Ha].
  destruct (lookup_lt_is_Some_2 cs j Hj) as [b Hb].
  rewrite Ha, Hb. destruct (decide (j = i)) as [->|Hne].
  - rewrite list_lookup_insert_eq by (rewrite length_insert; lia). congruence.
  - rewrite list_lookup_insert_ne by done.
    by rewrite list_lookup_insert_eq by lia.
Qed.

Lemma shuffleLoop_keeps_last r i pre x k :
  i < length pre → last (shuffleLoop r i (pre ++ [x]) k).1 = Some x.
Proof.
  intros Hi. rewrite shuffleLoop_app by exact Hi. cbn [fst]. apply last_snoc.
Qed.

(** X3. The card that ends up last in the shuffled deck, the top of the
    pile, is the card that stood at index [rand() % size] for the first
    value of [rand()] the shuffle obtains; later values only rearrange the
    cards below it. *)
Theorem X3_shuffleDeck_top_card (rand_out : nat → nat)
    (deck : DeckOfCards) (k : nat) :
  cards deck ≠ [] →
  last (cards (shuffleDeck rand_out deck k).1)
  = cards deck !! (rand_out k `mod` size deck).
Proof.
  intros Hne. unfold shuffleDeck, size.
  destruct (shuffleLoop rand_out (length (cards deck) - 1) (cards deck) k)
    as [cs' k'] eqn:Hloop.
  cbn [fst cards]. replace cs' with
    (shuffleLoop rand_out (length (cards deck) - 1) (cards deck) k).1
    by (by rewrite Hloop).
  clear Hloop. generalize dependent (cards deck). intros cs Hne.
  destruct cs as [|c0 cs0] eqn:Ecs; [done|]. rewrite <- Ecs.
  assert (Hlen : length cs = S (length cs0)) by (by rewrite Ecs).
  clear Hne. rewrite Hlen. replace (S (length cs0) - 1) with (length cs0) by lia.
  destruct (length cs0) as [|n] eqn:En.
  - destruct cs0; [|done]. rewrite Ecs. reflexivity.
  - cbn [shuffleLoop]. replace (S n + 1) with (S (S n)) by lia.
    set (j := rand_out k `mod` S (S n)).
    assert (Hj : j < S (S n)) by (apply Nat.mod_upper_bound; lia).
    set (cs1 := swapCards cs (S n) j).
    assert (Hcs1len : length cs1 = S (S n))
      by (unfold cs1; rewrite swapCards_length; done).
    assert (Hlast : cs1 !! S n = cs !! j)
      by (apply swapCards_lookup_l; lia).
    destruct (lookup_lt_is_Some_2 cs j) as [x Hx]; [lia|].
    rewrite Hx in Hlast |- *.
    assert (Hsplit : cs1 = take (S n) cs1 ++ [x]).
    { rewrite <- (take_drop_middle cs1 (S n) x Hlast) at 1.
      rewrite drop_ge by lia. reflexivity. }
    rewrite Hsplit. apply shuffleLoop_keeps_last. rewrite length_take. lia.
Qed.

Lemma X3_witness :
  cards sample_hidden_three ≠ [] ∧
  last (cards (shuffleDeck sample_rand sample_hidden_three 0).1)
  = cards sample_hidden_three !! (sample_rand 0 `mod` size sample_hidden_three).
Proof.
  assert (H : cards sample_hidden_three ≠ []) by (simpl; discriminate).
  split; [exact H|].
  exact (X3_shuffleDeck_top_card sample_rand sample_hidden_three 0 H).
Defined.




